(* ===== verification/_CoqProject ===== *)
-Q . S2P
Prelude.v
Regex.v
JsString.v
Substitute.v
Assets.v
Engine.v
Completion.v
Plugin.v
Outcome.v
