(* ===== verification/Prelude.v ===== *)
(** * A verification library for the [InjectTemplate] webpack plugin

    The repository (Quelennuii/webpack-learning) holds two source files:

    - [src/InjectTemplate.js], a webpack plugin class whose method
      [replaceAssets] is the whole substitution engine: it walks the
      build's asset object, picks the assets whose name passes
      [/.*\.html$/], scans their text with [/<!-- replace=«(\S*?)» -->/g]
      ([String.prototype.matchAll]), asks the local mock [RemoteData]
      (a [Promise.resolve] over a two-entry object) for every marker,
      waits with [Promise.all], substitutes every marker with
      [String.prototype.replace], writes a new source object back into
      [compilation.assets], and resolves the promise it returned when the
      asset whose key is the last of [Object.keys(assets)] has finished;
    - [src/webpack.config.js], a configuration object that registers the
      plugin with an option [url] (which the plugin never reads).

    The components and how they interact:
    the engine ([replaceAssets]) calls the eligibility test and the marker
    scanner on each key and content, calls the data source once per
    marker in its synchronous loop, then runs one promise chain per HTML
    asset; each chain uses [String.prototype.replace] once per marker and
    writes the asset store; the shared state is the asset store, the
    [cache] object and the pending promise of [replaceAssets].

    ** Files (in dependency order)

    - [Prelude.v] (this file): JavaScript strings as [list ascii] (one
      [ascii] per UTF-16 code unit, restricted to 0-255), the string
      primitives the code relies on ([starts_with], [StringIndexOf] as
      [index_of]), the notion of an occurrence, the [jstr] hint
      databases and tactics shared by every component.
    - [Regex.v]: the two regular expressions of the code.  Module
      [HtmlTest] models [/.*\.html$/.test(key)] (line 52) as a
      backtracking matcher ([html_test]); Module [Marker] models the lazy
      matcher [<!-- replace=«(\S*?)» -->] of line 63 at one position
      ([marker_at], [lazy_name]), its greedy reading [\S*] from the spec
      ([greedy_name]) and [matchAll] as a left-to-right scan with fuel
      ([scan_fuel], [scan], [match_all]).  Module [RegexTheorems] holds
      their theorems.
    - [JsString.v]: the values a promise can deliver ([jsval]: a string,
      [undefined], or a member of [Object.prototype] read through a plain
      object, [proto_lookup], [js_get]), [ToString], truthiness,
      IsCallable, the call of an inherited function as a replacer
      ([call_replacer]), ECMA-262 [GetSubstitution] for a string search
      value ([get_substitution]) and [String.prototype.replace] with a
      string pattern ([js_replace], [None] when the replacer throws).
    - [Substitute.v]: the body of the first [.then] callback of
      [replaceAssets] (lines 77-86: cache update and one
      [target.replace(tag, data)] per marker, [then_replace]) and the
      spec's simultaneous literal substitution ([splice]) it is compared
      with.
    - [Assets.v]: the asset object (an insertion-ordered association list
      of key and content), [Object.keys] with its array-index-first
      order ([object_keys]), the store update [compilation.assets[key] =
      ...] ([store_set]), the plugin's options, and the data source
      capability ([DataSource], a typeclass) with the repository's
      [RemoteData] instance (lines 5-11).
    - [Engine.v]: [replaceAssets] itself (lines 41-106).  Its state
      ([state]) holds the asset store, the own properties of [cache], the
      names requested from [RemoteData], one [task] per HTML asset (key,
      [target], [tags], [isLastAsset] and the progress of its promise
      chain) and whether [resolve()] has been called.  The synchronous
      loop is a function ([sync_loop], [replace_assets]); the
      asynchronous chains ([Promise.all] and the three [.then]
      callbacks) are a step relation ([step]) whose runs are any
      interleaving of the chains; [reachable] collects the states of the
      runs.  The relation lets the data of the chains settle in any
      order, as the spec's remote [fetch] allows; with the repository's
      [RemoteData], whose promises are already resolved, the job queue
      runs one of these orders, so the theorems on every run hold for it
      and the theorems on some run show what a slower data source
      exposes.  The invariant [inv] relates every reachable state to the
      initial one and is preserved by every step ([inv_reachable]).
    - [Completion.v]: the theorems on runs: when the promise is resolved,
      what a rejected fetch or a replacer taken from [Object.prototype]
      does, and the final asset set when all data resolve; the measure
      [pending_work] that every step decreases, so every run is finite.
    - [Plugin.v]: the plugin class (lines 13-38): [constructor],
      [apply] tapping [thisCompilation], whose callback taps
      [processAssets] with [replaceAssets]; the hooks as lists of taps
      that the host calls by stage with [compilation.assets]; and
      webpack.config.js as a record ([webpack_config_of]), with Node's
      [path.resolve] written out as a helper.  The file holds the model
      of these parts only: their behaviour is the composition of the
      definitions, which the engine's theorems then cover.
    - [Outcome.v]: the state every finished run reaches
      ([final_assets], [final_resolved]), the spec's [process] as an
      abstract function ([spec_process]) and the refinement of it by
      the runs, and one executable schedule of the chains ([run_sched])
      used to build concrete finished runs.

    ** What the theorems show

    - Regular expressions: [html_test] is the suffix test [.html] on
      keys without line terminators; the lazy and greedy name groups
      agree; [marker_at] matches exactly a marker of a whitespace-free
      name; the scan finds the leftmost non-overlapping matches (the
      gaps and markers concatenate to the text and no match starts in a
      gap or in the tail), and it inverts rendering.
    - Substitution: the code's sequence of first-occurrence [replace]
      calls equals the spec's simultaneous substitution when values are
      [$]-free and introduce no marker text; without these conditions
      it differs: data [$&] leave every page unchanged, and a value
      holding the text of a later marker diverts that marker's value and
      leaves the marker in the page.  An inherited [Object.prototype]
      function as data makes [replace] call it: [constructor] leaves the
      page unchanged, most other members throw and the page is never
      written.
    - Engine: the promise is resolved synchronously when the last key of
      [Object.keys] is not HTML; every marker occurrence is requested
      (the cache is read before any write); the promise can be resolved
      while other pages are unwritten; a rejection in the last page's
      chain leaves the promise pending forever, one in another page goes
      unnoticed; an empty asset object never resolves; non-HTML assets
      are never written; the asset object keeps its keys and their order
      in every state.
    - Outcome: every finished run ends in one state computed from the
      input (determinism), and on plain pages (no [Object.prototype]
      names, no [$], no marker text in values) that state is the spec's
      [process] result, resolved unless the asset object is empty
      (refinement).
    - [Object.keys]: array-index keys first, sorted by decimal value,
      then the other keys in creation order.

    ** Bounds and fuel

    [scan_fuel] takes one unit of fuel per code unit consumed; [scan]
    gives it [length s], which is enough because every iteration consumes
    at least one code unit: with that fuel the scan misses no match
    ([scan_fuel_leftmost]).  Termination of the chains is measured by
    [pending_work], the sum over chains of the steps each still has
    (three from [Waiting]), which every step decreases.  Array indices
    of [Object.keys] are bounded by [2^32 - 1] as in ECMA-262, with [N]
    arithmetic.

    ** Plan of the development (sitting by sitting)

    1. (done) Strings, both regular expressions, [String.prototype.replace]
       with the function replacer and the [Object.prototype] members, the
       per-asset substitution and its equivalence with the spec's
       substitution; the engine's synchronous loop and step relation with
       its invariant; completion, failure, fetch-count and isolation
       theorems; [Object.keys] order.
    2. (done) The final state of every run and its uniqueness; the spec's
       [process] as an abstract function and the refinement theorem; the
       key-order invariant of the asset object; plugin registration and
       the configuration as definitions.
    3. (done) General forms of the substitution counterexamples, the
       leftmost-match property of the scan, and the numeric order of
       [Object.keys].
    4. The spec's fan-in design (pending counter, shared in-flight fetch)
       as a step relation; the JavaScript job queue for already-resolved
       data as a deterministic schedule; the [additionalAssets]
       re-invocation.

    ** Not modelled

    - webpack's own machinery beyond the two hooks the plugin taps: the
      compilation's other stages, the re-invocation of a
      [processAssets] tap for assets added at later stages
      ([additionalAssets]), and output writing.
    - HtmlWebpackPlugin: a library the configuration parameterizes; its
      options are data of [webpack_config], its templating and
      minification are not modelled.
    - Buffers returned by [source()]: HTML sources are strings.
    - Unicode beyond code unit 255: the eligibility and marker regexps
      only distinguish line terminators and white space, whose 8-bit
      members ([\t \n \v \f \r], space, no-break space) are modelled.
    - Node's handling of the unhandled rejection of a skipped chain
      (a warning, or the end of the process): the model only records
      that the chain stops. *)

From Stdlib Require Export Ascii.
From Stdlib Require String.
From stdpp Require Export base list strings relations.

(** Prelude: strings as lists of code units, prefix and occurrence
    tests, [StringIndexOf], and the shared automation. *)

Declare Scope jstr_scope.
Delimit Scope jstr_scope with jstr.

(** A JavaScript string: one [ascii] per UTF-16 code unit. *)
Abbreviation jstr := (list ascii).

(** A string literal of the source, as a [jstr]. *)
Definition lit (s : String.string) : jstr := String.list_ascii_of_string s.
Notation "'js:' s" := (lit s%string) (at level 10, s at level 0) : jstr_scope.
Open Scope jstr_scope.

(** Characters that cannot be written inside a Rocq string literal. *)
Definition ch_dq : ascii := "034"%char.
Definition ch_lt : ascii := "<"%char.
Definition ch_space : ascii := " "%char.

(** [s] begins with [p]. *)
Fixpoint starts_with (p s : jstr) : bool :=
  match p, s with
  | [], _ => true
  | c :: p', d :: s' => bool_decide (c = d) && starts_with p' s'
  | _ :: _, [] => false
  end.

(** [s] ends with [p]. *)
Definition ends_with (p s : jstr) : bool :=
  starts_with (rev p) (rev s).

(** ECMA-262 StringIndexOf(s, pat, 0): the first index at which [pat]
    occurs in [s]; an empty pattern occurs at 0. *)
Fixpoint index_of (pat s : jstr) : option nat :=
  if starts_with pat s then Some 0
  else match s with
       | [] => None
       | _ :: s' => S <$> index_of pat s'
       end.

(** [pat] occurs in [s] at index [j]. *)
Definition occurs_at (pat s : jstr) (j : nat) : Prop :=
  starts_with pat (drop j s) = true.

(** [pat] occurs somewhere in [s]. *)
Definition occurs (pat s : jstr) : Prop :=
  exists a b, s = a ++ pat ++ b.

(** [pat] overlaps no other occurrence of itself: no proper suffix of it
    is a prefix of it. *)
Definition unbordered (pat : jstr) : Prop :=
  forall k, 0 < k < length pat -> starts_with (drop k pat) pat = false.

(** ** Texts cut into pieces *)

(** [assemble [(g1, x1); ...; (gn, xn)] r] is [g1 ++ x1 ++ ... ++ gn ++ xn
    ++ r]: a text read as gaps [gi], inserted pieces [xi] and a tail. *)
Fixpoint assemble (items : list (jstr * jstr)) (tail : jstr) : jstr :=
  match items with
  | [] => tail
  | (g, x) :: items' => g ++ x ++ assemble items' tail
  end.

Create HintDb jstr discriminated.
Create Rewrite HintDb jstr_simpl.

Ltac bool_to_prop :=
  repeat match goal with
  | H : _ && _ = true |- _ => apply andb_prop in H as [? ?]
  | H : bool_decide _ = true |- _ => apply bool_decide_eq_true_1 in H
  | H : negb _ = true |- _ => apply negb_true_iff in H
  end.

(** Discharges the hypotheses of a theorem applied to concrete data:
    each one is decided or evaluated. *)
Ltac discharge_concrete :=
  first [ apply rtc_refl
        | discriminate
        | apply (bool_decide_eq_true_1 _); vm_compute; reflexivity
        | vm_compute; reflexivity
        | vm_compute; eexists; reflexivity ].

(** ** Prefix tests *)

Lemma starts_with_spec p s : starts_with p s = true <-> exists r, s = p ++ r.
Proof.
  revert s; induction p as [|c p IH]; intros [|d s]; simpl.
  - split; eauto.
  - split; eauto.
  - split; [done | intros [r Hr]; discriminate].
  - rewrite andb_true_iff, bool_decide_eq_true, IH. split.
    + intros [-> [r ->]]. eauto.
    + intros [r Hr]. injection Hr as -> ->. eauto.
Qed.

Lemma starts_with_app p r : starts_with p (p ++ r) = true.
Proof. apply starts_with_spec. eauto. Qed.

Lemma starts_with_refl p : starts_with p p = true.
Proof. rewrite <- (app_nil_r p) at 2. apply starts_with_app. Qed.

Lemma starts_with_app_l p s r :
  starts_with p s = true -> starts_with p (s ++ r) = true.
Proof.
  rewrite !starts_with_spec. intros [x ->]. exists (x ++ r).
  by rewrite app_assoc.
Qed.

Lemma starts_with_length p s :
  starts_with p s = true -> length p <= length s.
Proof. intros [r ->]%starts_with_spec. rewrite length_app. lia. Qed.

Lemma starts_with_long p s r :
  length p <= length s -> starts_with p (s ++ r) = starts_with p s.
Proof.
  revert s; induction p as [|c p IH]; intros [|d s] Hl; simpl in *;
    try done; try lia. rewrite IH; [done | lia].
Qed.

Lemma ends_with_spec p s : ends_with p s = true <-> exists a, s = a ++ p.
Proof.
  unfold ends_with. rewrite starts_with_spec. split.
  - intros [r Hr]. exists (rev r).
    by rewrite <- (rev_involutive s), Hr, rev_app_distr, rev_involutive.
  - intros [a ->]. exists (rev a). by rewrite rev_app_distr.
Qed.

Lemma starts_with_lookup p s i :
  starts_with p s = true -> i < length p -> s !! i = p !! i.
Proof. intros [r ->]%starts_with_spec Hi. by rewrite lookup_app_l. Qed.

#[export] Hint Resolve starts_with_app starts_with_refl : jstr.
#[export] Hint Rewrite starts_with_app starts_with_refl : jstr_simpl.

(** ** [StringIndexOf] *)

Lemma occurs_at_app_r pat a b j :
  occurs_at pat (a ++ b) (length a + j) <-> occurs_at pat b j.
Proof. unfold occurs_at. by rewrite drop_app_add. Qed.

Lemma index_of_Some pat s i :
  index_of pat s = Some i ->
  occurs_at pat s i /\ forall j, j < i -> ~ occurs_at pat s j.
Proof.
  unfold occurs_at. revert i; induction s as [|c s IH]; intros i; simpl.
  - destruct (starts_with pat []) eqn:E; intros; simplify_eq; split; [done|lia].
  - destruct (starts_with pat (c :: s)) eqn:E; intros Hi.
    + simplify_eq. split; [done | lia].
    + destruct (index_of pat s) as [i'|] eqn:Ei; simplify_eq/=.
      destruct (IH i' eq_refl) as [Hocc Hfirst]. split; [done|].
      intros [|j] Hj; simpl; [congruence|]. apply Hfirst. lia.
Qed.

Lemma index_of_None pat s :
  index_of pat s = None -> forall j, j <= length s -> ~ occurs_at pat s j.
Proof.
  unfold occurs_at. induction s as [|c s IH]; simpl.
  - destruct (starts_with pat []) eqn:E; [done|]. intros _ j _.
    rewrite drop_nil. congruence.
  - destruct (starts_with pat (c :: s)) eqn:E; [done|].
    destruct (index_of pat s) eqn:Ei; [done|]. intros _ [|j] Hj; simpl.
    + congruence.
    + apply IH; [done | lia].
Qed.

(** The first occurrence is found at [i] when nothing occurs before. *)
Lemma index_of_first pat s i :
  occurs_at pat s i -> (forall j, j < i -> ~ occurs_at pat s j) ->
  index_of pat s = Some i.
Proof.
  unfold occurs_at. revert s; induction i as [|i IH]; intros [|c s] Hocc Hbefore;
    simpl in *.
  - by rewrite Hocc.
  - by rewrite Hocc.
  - destruct (starts_with pat []) eqn:E; [|by destruct pat].
    exfalso. apply (Hbefore 0); [lia | done].
  - destruct (starts_with pat (c :: s)) eqn:E.
    + exfalso. apply (Hbefore 0); [lia | done].
    + rewrite (IH s); [done | done |]. intros j Hj. apply (Hbefore (S j)). lia.
Qed.

(** An unbordered pattern that does not occur in [P] is first found right
    after [P] in [P ++ pat ++ R]. *)
Lemma index_of_after pat P R :
  unbordered pat -> ~ occurs pat P ->
  index_of pat (P ++ pat ++ R) = Some (length P).
Proof.
  intros Hub Hno. apply index_of_first.
  - unfold occurs_at. rewrite drop_app_length. apply starts_with_app.
  - intros j Hj Hocc. unfold occurs_at in Hocc.
    destruct (decide (j + length pat <= length P)) as [Hin|Hstr].
    + apply Hno.
      assert (Hs : starts_with pat (drop j P) = true).
      { rewrite <- (starts_with_long _ _ (pat ++ R)) by (rewrite length_drop; lia).
        by rewrite <- drop_app_le by lia. }
      apply starts_with_spec in Hs as [b Hb]. exists (take j P), b.
      by rewrite <- Hb, take_drop.
    + apply starts_with_spec in Hocc as [r Hr].
      set (k := length P - j).
      enough (starts_with (drop k pat) pat = true) as Hb
        by (rewrite Hub in Hb; [discriminate | lia]).
      rewrite <- (starts_with_long _ pat R) by (rewrite length_drop; lia).
      apply starts_with_spec. exists r.
      apply (f_equal (drop k)) in Hr. rewrite drop_drop in Hr.
      replace (j + k) with (length P) in Hr by lia.
      rewrite drop_app_length, drop_app_le in Hr by lia. done.
Qed.

Lemma occurs_app_l pat a b : occurs pat a -> occurs pat (a ++ b).
Proof. intros (x & y & ->). exists x, (y ++ b). by rewrite <- !app_assoc. Qed.

#[export] Hint Resolve occurs_app_l : jstr.

Lemma occurs_index_of pat s : occurs pat s -> is_Some (index_of pat s).
Proof.
  intros (a & b & ->). destruct (index_of pat (a ++ pat ++ b)) eqn:E; [by eexists|].
  exfalso. apply (index_of_None _ _ E (length a)).
  - rewrite !length_app. lia.
  - unfold occurs_at. rewrite drop_app_length. apply starts_with_app.
Qed.

Lemma index_of_None_not_occurs pat s : index_of pat s = None -> ~ occurs pat s.
Proof. intros E Ho. destruct (occurs_index_of _ _ Ho) as [? E']. congruence. Qed.

(** ** Generic list lemmas *)

Lemma filter_Forall_id {A} (P : A -> Prop) `{forall x, Decision (P x)} l :
  Forall P l -> filter P l = l.
Proof. induction 1; [done|]. rewrite filter_cons_True; [by f_equal | done]. Qed.

Lemma filter_Forall_nil {A} (P : A -> Prop) `{forall x, Decision (P x)} l :
  Forall (fun x => ~ P x) l -> filter P l = [].
Proof. induction 1; [done|]. by rewrite filter_cons_False. Qed.

Lemma existsb_insert {A} (f : A -> bool) (l : list A) i x y :
  l !! i = Some y -> f y = false -> existsb f (<[i := x]> l) = existsb f l || f x.
Proof.
  revert i. induction l as [|z l IH]; intros [|i] Hi Hy; simplify_eq/=.
  - rewrite Hy. by destruct (f x), (existsb f l).
  - rewrite (IH i Hi Hy). by destruct (f z), (existsb f l), (f x).
Qed.

Lemma existsb_last_eq {A} `{EqDecision A} (f : A -> bool) (l : list A) k :
  k ∈ l -> existsb (fun x => bool_decide (Some x = Some k) && f x) l = f k.
Proof.
  intros Hin. transitivity (existsb (fun x => bool_decide (x = k)) l && f k).
  - clear Hin. induction l as [|x l IH]; [done|]. simpl. rewrite IH.
    case_bool_decide; case_bool_decide; simplify_eq; simpl; [|done].
    destruct (f k); [done | by rewrite andb_false_r].
  - assert (existsb (fun x => bool_decide (x = k)) l = true) as -> by
      (apply existsb_exists; exists k; split; [by apply list_elem_of_In | by case_bool_decide]).
    done.
Qed.
