(* ===== verification/Regex.v ===== *)
(** * The two regular expressions of [replaceAssets]

    [HtmlTest]: [/.*\.html$/.test(key)] (src/InjectTemplate.js, line 52),
    the eligibility filter.  [Marker]: the global regexp
    [/<!-- replace=«(\S*?)» -->/g] and [target.matchAll] (lines 63-74),
    the marker scanner, with its equivalence to the greedy [\S*] of the
    spec, its characterisation, its decomposition of the scanned text and
    its round trip with the rendering of markers. *)

From S2P Require Import Prelude.

Module HtmlTest.

(** ECMA-262 LineTerminator, in code units 0-255: LF and CR. *)
Definition is_line_terminator (c : ascii) : bool :=
  bool_decide (nat_of_ascii c = 10) || bool_decide (nat_of_ascii c = 13).

(** The pattern [.*\.html$] matched from one start position: [.*]
    consumes code units that are not line terminators, then [\.html]
    and the end of the input ([$] without the [m] flag).  The boolean
    is the same whichever order the backtracking tries the lengths of
    [.*] in. *)
Fixpoint dot_star_html (u : jstr) : bool :=
  bool_decide (u = lit ".html") ||
  match u with
  | [] => false
  | c :: u' => negb (is_line_terminator c) && dot_star_html u'
  end.

(** [RegExp.prototype.test] of a regexp without [g] or [y]: a match at
    some start position, tried left to right. *)
Fixpoint html_test (key : jstr) : bool :=
  dot_star_html key ||
  match key with
  | [] => false
  | _ :: key' => html_test key'
  end.

End HtmlTest.

Module Marker.

(** ECMA-262 WhiteSpace and LineTerminator in code units 0-255: the
    complement of [\S]. *)
Definition is_space (c : ascii) : bool :=
  bool_decide (nat_of_ascii c ∈ [9; 10; 11; 12; 13; 32; 160]).

Definition space_free (n : jstr) : Prop := Forall (fun c => is_space c = false) n.

#[export] Instance space_free_dec n : Decision (space_free n).
Proof. unfold space_free. apply _. Defined.

(** [<!-- replace=«] and [» -->], where « and » stand for the double
    quote character (code unit 34). *)
Definition marker_open : jstr := lit "<!-- replace=" ++ [ch_dq].
Definition marker_close : jstr := ch_dq :: lit " -->".

(** The text of the marker for [name]: [item[0]] of a match. *)
Definition mk_tag (name : jstr) : jstr := marker_open ++ name ++ marker_close.

(** The lazy group [(\S*?)] followed by [» -->]: try the shortest name
    first, extend it by one non-space code unit at a time.  Returns the
    captured name and the text after the match. *)
Fixpoint lazy_name (s : jstr) : option (jstr * jstr) :=
  if starts_with marker_close s then Some ([], drop (length marker_close) s)
  else match s with
       | [] => None
       | c :: s' =>
           if is_space c then None
           else (fun '(n, r) => (c :: n, r)) <$> lazy_name s'
       end.

(** The greedy group [\S*] of the spec: take the longest run first and give code
    units back until [» -->] follows. *)
Fixpoint greedy_name (s : jstr) : option (jstr * jstr) :=
  let here :=
    if starts_with marker_close s then Some ([], drop (length marker_close) s)
    else None in
  match s with
  | [] => here
  | c :: s' =>
      if is_space c then here
      else match greedy_name s' with
           | Some (n, r) => Some (c :: n, r)
           | None => here
           end
  end.

(** The regexp tried at one position of the text. *)
Definition marker_at (s : jstr) : option (jstr * jstr) :=
  if starts_with marker_open s then lazy_name (drop (length marker_open) s)
  else None.

(** Prepend one unmatched code unit to a scan result. *)
Definition push_unit (c : ascii) (res : list (jstr * jstr) * jstr)
    : list (jstr * jstr) * jstr :=
  match res with
  | ((g, n) :: ms, tl) => ((c :: g, n) :: ms, tl)
  | ([], tl) => ([], c :: tl)
  end.

(** [matchAll] with a global regexp: try the regexp at the current
    position; after a match continue at its end ([lastIndex]), otherwise
    one code unit further.  The result lists, for each match, the text
    between it and the previous match together with the captured name,
    and the text after the last match.  [fuel] bounds the positions
    tried; [length s] of them always suffice. *)
Fixpoint scan_fuel (fuel : nat) (s : jstr) : list (jstr * jstr) * jstr :=
  match fuel with
  | 0 => ([], s)
  | S fuel' =>
      match marker_at s with
      | Some (n, rest) => let res := scan_fuel fuel' rest in (([], n) :: res.1, res.2)
      | None =>
          match s with
          | [] => ([], [])
          | c :: s' => push_unit c (scan_fuel fuel' s')
          end
      end
  end.

Definition scan (s : jstr) : list (jstr * jstr) * jstr := scan_fuel (length s) s.

(** The [tags] array before the data is attached: [item[0]] and
    [item[1]] of each match, in order. *)
Definition match_all (s : jstr) : list (jstr * jstr) :=
  (fun '(_, n) => (mk_tag n, n)) <$> (scan s).1.

(** The gaps of a scan with the marker texts they are followed by. *)
Definition tag_items (ms : list (jstr * jstr)) : list (jstr * jstr) :=
  (fun '(g, n) => (g, mk_tag n)) <$> ms.

(** The regexp fails at every position of the gap [g], where the text
    after the gap is [r]: no match starts inside a gap. *)
Definition no_match_in (g r : jstr) : Prop :=
  forall j, j < length g -> marker_at (drop j (g ++ r)) = None.

(** Every gap of a scan result, and its tail, is free of match starts:
    the matches are the leftmost ones. *)
Fixpoint gaps_free (ms : list (jstr * jstr)) (tail : jstr) : Prop :=
  match ms with
  | [] => no_match_in tail []
  | (g, n) :: ms' => no_match_in g (mk_tag n ++ assemble (tag_items ms') tail) /\ gaps_free ms' tail
  end.

End Marker.

(** ** Eligibility *)

Module HtmlTestFacts.
Import HtmlTest.

Lemma dot_star_html_ends u :
  dot_star_html u = true -> ends_with (lit ".html") u = true.
Proof.
  rewrite ends_with_spec. induction u as [|c u IH]; simpl.
  - discriminate.
  - intros [Hb%bool_decide_eq_true_1 | Hb]%orb_true_iff.
    + exists []. by rewrite Hb.
    + bool_to_prop. destruct (IH H0) as [a ->]. by exists (c :: a).
Qed.

Lemma html_test_ends key :
  html_test key = true -> ends_with (lit ".html") key = true.
Proof.
  induction key as [|c key IH]; simpl; [discriminate|].
  intros [Hd | Hk]%orb_true_iff; [by apply dot_star_html_ends|].
  apply ends_with_spec. destruct (proj1 (ends_with_spec _ _) (IH Hk)) as [a ->].
  by exists (c :: a).
Qed.

Lemma html_test_suffix a : html_test (a ++ lit ".html") = true.
Proof.
  induction a as [|c a IH].
  - reflexivity.
  - rewrite <- app_comm_cons. cbn [html_test]. by rewrite IH, orb_true_r.
Qed.

End HtmlTestFacts.

(** ** The marker regexp at one position *)

Module MarkerFacts.
Import Marker.

Lemma length_marker_open : length marker_open = 14.
Proof. reflexivity. Qed.

Lemma length_marker_close : length marker_close = 5.
Proof. reflexivity. Qed.

(** [» -->] cannot begin inside a name: its second code unit is a space. *)
Lemma close_not_inside c d t :
  is_space d = false -> starts_with marker_close (c :: d :: t) = false.
Proof.
  intros Hd. simpl. destruct (bool_decide (ch_dq = c)); [|done]. simpl.
  rewrite bool_decide_false; [done|]. intros <-. discriminate.
Qed.

Lemma lazy_name_close r : lazy_name (marker_close ++ r) = Some ([], r).
Proof. reflexivity. Qed.

Lemma lazy_name_spec s n r :
  lazy_name s = Some (n, r) <-> s = n ++ marker_close ++ r /\ space_free n.
Proof.
  split.
  - revert n r; induction s as [|c s IH]; intros n r; cbn [lazy_name].
    + discriminate.
    + destruct (starts_with marker_close (c :: s)) eqn:Hc.
      * intros [= <- <-]. split; [|constructor].
        apply starts_with_spec in Hc as [x Hx].
        pose proof (f_equal (drop 5) Hx) as Hd. simpl in Hd |- *.
        by rewrite Hd, Hx.
      * destruct (is_space c) eqn:Hs; [discriminate|].
        destruct (lazy_name s) as [[n' r']|] eqn:E; [|discriminate].
        intros [= <- ->]. destruct (IH n' r eq_refl) as [-> Hf].
        split; [done | by constructor].
  - intros [-> Hf]. revert Hf; induction n as [|c n IH]; intros Hf.
    + apply lazy_name_close.
    + apply Forall_cons in Hf as [Hc Hf]. rewrite <- app_comm_cons. cbn [lazy_name].
      assert (starts_with marker_close (c :: n ++ marker_close ++ r) = false) as ->.
      { destruct n as [|d n]; apply close_not_inside; [done|].
        by apply Forall_cons in Hf as [? _]. }
      by rewrite Hc, IH.
Qed.

(** The greedy quantifier has at most one place to give back to, so it
    finds the same name as the lazy one. *)
Lemma greedy_name_close r : greedy_name (lit " -->" ++ r) = None.
Proof. reflexivity. Qed.

Lemma marker_at_inv s n r :
  marker_at s = Some (n, r) -> s = mk_tag n ++ r /\ space_free n.
Proof.
  unfold marker_at, mk_tag. destruct (starts_with marker_open s) eqn:Ho; [|discriminate].
  apply starts_with_spec in Ho as [x ->]. rewrite drop_app_length.
  intros [-> Hf]%lazy_name_spec. split; [|done]. by rewrite <- !app_assoc.
Qed.

Lemma marker_at_tag n r : space_free n -> marker_at (mk_tag n ++ r) = Some (n, r).
Proof.
  intros Hf. unfold marker_at, mk_tag.
  rewrite <- !app_assoc, starts_with_app, drop_app_length. by apply lazy_name_spec.
Qed.

Lemma marker_at_plain c s : c <> ch_lt -> marker_at (c :: s) = None.
Proof.
  intros Hc. unfold marker_at. simpl.
  by rewrite bool_decide_false by (intros Heq; apply Hc; by rewrite <- Heq).
Qed.

Lemma marker_at_shorter s n r : marker_at s = Some (n, r) -> length r < length s.
Proof.
  intros [-> _]%marker_at_inv. rewrite length_app. unfold mk_tag.
  rewrite !length_app, length_marker_open. lia.
Qed.

End MarkerFacts.

(** ** Theorems of the eligibility filter and the marker scanner *)

Module RegexTheorems.
Import HtmlTest Marker HtmlTestFacts MarkerFacts.

(** C16: The eligibility test of line 52, [/.*\.html$/.test(key)], accepts
    exactly the keys that end with [.html]: the unescaped [.*] and the
    absence of an anchor at the start change nothing. *)
Theorem html_test_spec key : html_test key = ends_with (lit ".html") key.
Proof.
  apply Bool.eq_iff_eq_true. split; [apply html_test_ends|].
  intros [a ->]%ends_with_spec. apply html_test_suffix.
Qed.

(** C17: The lazy group of the code ([\S*?]) and the greedy group of the
    spec ([\S*]) capture the same name at every position. *)
Theorem lazy_name_greedy s : lazy_name s = greedy_name s.
Proof.
  induction s as [|c s IH]; [reflexivity|]. cbn [lazy_name greedy_name].
  destruct (starts_with marker_close (c :: s)) eqn:Hc.
  - apply starts_with_spec in Hc as [x Hx]. simpl in Hx. injection Hx as -> ->.
    reflexivity.
  - destruct (is_space c); [reflexivity|]. rewrite IH.
    by destruct (greedy_name s) as [[n r]|].
Qed.

Lemma length_mk_tag n : length (mk_tag n) = length n + 19.
Proof. unfold mk_tag. rewrite !length_app, length_marker_open. simpl. lia. Qed.

Lemma mk_tag_lookup_open n i : i < 14 -> mk_tag n !! i = marker_open !! i.
Proof. intros Hi. unfold mk_tag. by rewrite lookup_app_l. Qed.

Lemma mk_tag_lookup_name n i : i < length n -> mk_tag n !! (14 + i) = n !! i.
Proof.
  intros Hi. unfold mk_tag. rewrite lookup_app_r, length_marker_open by (simpl; lia).
  rewrite lookup_app_l by lia. f_equal. lia.
Qed.

Lemma mk_tag_lookup_close n i :
  mk_tag n !! (14 + length n + i) = marker_close !! i.
Proof.
  unfold mk_tag. rewrite lookup_app_r, length_marker_open by (simpl; lia).
  rewrite lookup_app_r by lia. f_equal. lia.
Qed.

(** A marker overlaps no other occurrence of itself.  This is what makes
    the first textual match of a marker the marker the scanner found. *)
Theorem mk_tag_unbordered n : space_free n -> unbordered (mk_tag n).
Proof.
  intros Hn k Hk. rewrite length_mk_tag in Hk.
  destruct (starts_with (drop k (mk_tag n)) (mk_tag n)) eqn:E; [exfalso | done].
  assert (Hat : forall i, k + i < length n + 19 -> mk_tag n !! (k + i) = mk_tag n !! i).
  { intros i Hi. rewrite <- lookup_drop. symmetry.
    apply (starts_with_lookup _ _ _ E). rewrite length_drop, length_mk_tag. lia. }
  pose proof (Hat 0 ltac:(lia)) as H0. rewrite Nat.add_0_r in H0.
  rewrite (mk_tag_lookup_open n 0) in H0 by lia. simpl in H0.
  destruct (decide (k < 14)) as [Hk1|Hk1].
  - rewrite mk_tag_lookup_open in H0 by lia.
    do 14 (destruct k as [|k]; [simpl in H0; try lia; discriminate|]). lia.
  - destruct (decide (k < 14 + length n)) as [Hk2|Hk2].
    + destruct (decide (k - 14 + 4 < length n)) as [Hj|Hj].
      * pose proof (Hat 4 ltac:(lia)) as H4.
        rewrite (mk_tag_lookup_open n 4) in H4 by lia.
        replace (k + 4) with (14 + (k - 14 + 4)) in H4 by lia.
        rewrite mk_tag_lookup_name in H4 by lia.
        pose proof (Forall_lookup_1 _ _ _ _ Hn H4). discriminate.
      * pose proof (Hat 4 ltac:(lia)) as H4. pose proof (Hat 5 ltac:(lia)) as H5.
        rewrite (mk_tag_lookup_open n 4) in H4 by lia.
        rewrite (mk_tag_lookup_open n 5) in H5 by lia.
        set (i := k + 4 - (14 + length n)).
        replace (k + 4) with (14 + length n + i) in H4 by lia.
        replace (k + 5) with (14 + length n + S i) in H5 by lia.
        rewrite mk_tag_lookup_close in H4, H5.
        assert (i < 4) as Hi by lia. clearbody i.
        destruct i as [|[|[|[|i]]]]; simpl in *; try discriminate; lia.
    + set (i := k - (14 + length n)).
      replace k with (14 + length n + i) in H0 by lia.
      rewrite mk_tag_lookup_close in H0.
      assert (i < 5) as Hi by lia. clearbody i.
      destruct i as [|[|[|[|[|i]]]]]; simpl in *; try discriminate; lia.
Qed.

(** ** [matchAll] *)

Lemma scan_fuel_stable f1 f2 s :
  length s <= f1 -> length s <= f2 -> scan_fuel f1 s = scan_fuel f2 s.
Proof.
  revert f2 s; induction f1 as [|f1 IH]; intros [|f2] s H1 H2.
  - done.
  - by destruct s; [|simpl in H1; lia].
  - by destruct s; [|simpl in H2; lia].
  - cbn [scan_fuel]. destruct (marker_at s) as [[n rest]|] eqn:Hm.
    + pose proof (marker_at_shorter _ _ _ Hm). by rewrite (IH f2 rest) by lia.
    + destruct s as [|c s]; [done|]. simpl in H1, H2. by rewrite (IH f2 s) by lia.
Qed.

Lemma scan_fuel_decompose fuel s :
  s = assemble (tag_items (scan_fuel fuel s).1) (scan_fuel fuel s).2 /\
  Forall (fun m => space_free m.2) (scan_fuel fuel s).1.
Proof.
  revert s; induction fuel as [|fuel IH]; intros s; [split; [done | constructor]|].
  cbn [scan_fuel]. destruct (marker_at s) as [[n rest]|] eqn:Hm.
  - apply marker_at_inv in Hm as [-> Hn]. destruct (IH rest) as [Hr Hf].
    split; [simpl; by rewrite <- Hr | by constructor].
  - destruct s as [|c s]; [split; [done | constructor]|].
    destruct (IH s) as [Hr Hf].
    destruct (scan_fuel fuel s) as [[|[g n] ms] tl]; simpl in *.
    + split; [by f_equal | constructor].
    + split; [by f_equal | apply Forall_cons in Hf as [? ?]; by constructor].
Qed.

Lemma no_match_in_cons c g r :
  marker_at (c :: g ++ r) = None -> no_match_in g r -> no_match_in (c :: g) r.
Proof. intros Hc Hg [|j] Hj; [done|]. apply Hg. simpl in Hj. lia. Qed.

(** With fuel for every position, no match is skipped. *)
Lemma scan_fuel_leftmost fuel s :
  length s <= fuel -> gaps_free (scan_fuel fuel s).1 (scan_fuel fuel s).2.
Proof.
  revert s; induction fuel as [|fuel IH]; intros s Hs.
  - destruct s; [|simpl in Hs; lia]. simpl. intros j Hj. simpl in Hj. lia.
  - cbn [scan_fuel]. destruct (marker_at s) as [[n rest]|] eqn:Hm.
    + pose proof (marker_at_shorter _ _ _ Hm). split; [intros j Hj; simpl in Hj; lia|].
      apply IH. lia.
    + destruct s as [|c s]; [intros j Hj; simpl in Hj; lia|]. simpl in Hs.
      pose proof (IH s ltac:(lia)) as Hg. destruct (scan_fuel_decompose fuel s) as [Hd _].
      destruct (scan_fuel fuel s) as [[|[g n] ms] tl]; simpl in Hg, Hd |- *.
      * apply no_match_in_cons; [by rewrite app_nil_r, <- Hd | done].
      * destruct Hg as [Hg1 Hg2]. split; [|done].
        apply no_match_in_cons; [by rewrite <- Hd | done].
Qed.

Lemma scan_nil : scan [] = ([], []).
Proof. reflexivity. Qed.

Lemma scan_cons_plain c s : c <> ch_lt -> scan (c :: s) = push_unit c (scan s).
Proof. intros Hc. unfold scan. cbn [length scan_fuel]. by rewrite marker_at_plain. Qed.

Lemma scan_tag n r :
  space_free n -> scan (mk_tag n ++ r) = (([], n) :: (scan r).1, (scan r).2).
Proof.
  intros Hn. unfold scan at 1. rewrite length_app, length_mk_tag.
  replace (length n + 19 + length r) with (S (length n + 18 + length r)) by lia.
  cbn [scan_fuel]. rewrite marker_at_tag by done.
  by rewrite (scan_fuel_stable _ (length r)) by lia.
Qed.

Lemma scan_plain_app g x :
  Forall (fun c => c <> ch_lt) g -> scan (g ++ x) = foldr push_unit (scan x) g.
Proof.
  induction 1 as [|c g Hc Hg IH]; [done|]. simpl. by rewrite scan_cons_plain, IH.
Qed.

Lemma push_units_gap g g' n ms tl :
  foldr push_unit ((g', n) :: ms, tl) g = ((g ++ g', n) :: ms, tl).
Proof. induction g as [|c g IH]; simpl; [done|]. by rewrite IH. Qed.

Lemma push_units_nil g tl : foldr push_unit ([], tl) g = ([], g ++ tl).
Proof. induction g as [|c g IH]; simpl; [done|]. by rewrite IH. Qed.

(** C20: Round trip: rendering gaps free of [<] and space-free names as a
    text with markers, then scanning it, gives back the gaps, the names
    and the tail. *)
Theorem scan_render ms tail :
  Forall (fun m => Forall (fun c => c <> ch_lt) m.1 /\ space_free m.2) ms ->
  Forall (fun c => c <> ch_lt) tail ->
  scan (assemble (tag_items ms) tail) = (ms, tail).
Proof.
  intros Hms Ht. induction Hms as [|[g n] ms [Hg Hn] Hms IH].
  - change (assemble (tag_items []) tail) with tail.
    rewrite <- (app_nil_r tail) at 1. rewrite scan_plain_app by done.
    by rewrite scan_nil, push_units_nil, app_nil_r.
  - change (assemble (tag_items ((g, n) :: ms)) tail)
      with (g ++ mk_tag n ++ assemble (tag_items ms) tail).
    by rewrite scan_plain_app, scan_tag, IH, push_units_gap, app_nil_r.
Qed.

(** C18: The regexp matches at the start of a text exactly when the text
    begins with the marker of a name without white space; it captures
    that name and leaves the rest. *)
Theorem marker_at_spec s n r :
  marker_at s = Some (n, r) <-> s = mk_tag n ++ r /\ space_free n.
Proof.
  split; [apply marker_at_inv | intros [-> Hn]; by apply marker_at_tag].
Qed.

(** C19: [matchAll] finds the leftmost non-overlapping matches: the scan
    cuts the text into gaps and markers whose concatenation is the text,
    every captured name is free of white space, and the regexp fails at
    every position inside a gap and inside the tail, so no marker of the
    text is skipped. *)
Theorem scan_decompose s :
  s = assemble (tag_items (scan s).1) (scan s).2 /\
  Forall (fun m => space_free m.2) (scan s).1 /\
  gaps_free (scan s).1 (scan s).2.
Proof.
  destruct (scan_fuel_decompose (length s) s) as [Hd Hf].
  split; [exact Hd|]. split; [exact Hf|]. by apply scan_fuel_leftmost.
Qed.

Lemma scan_render_witness :
  scan (assemble (tag_items [(lit "Hello ", lit "name"); (lit ", see ", lit "footer")]) (lit "."))
  = ([(lit "Hello ", lit "name"); (lit ", see ", lit "footer")], lit ".").
Proof. apply scan_render; discharge_concrete. Defined.

End RegexTheorems.
