(* ===== verification/JsString.v ===== *)
(** * JavaScript values, plain objects and [String.prototype.replace]

    The values a promise of [replaceAssets] delivers ([jsval]): a string,
    [undefined] when [RemoteData] reads a key its object lacks, or a
    member of [Object.prototype] when the key names one ([constructor],
    [toString], ...), since [data] and [cache] are plain objects.  Their
    [ToString] and truthiness (the tests [cache[name] ? ...] and
    [!cache[name]] of lines 72 and 82), property reads on a plain object
    ([js_get]), ECMA-262 [GetSubstitution] for a string search value, and
    [String.prototype.replace(tag, data)] of line 84 with a string
    pattern, where a callable [data] is called as a replacer and may
    throw. *)

From S2P Require Import Prelude.
From stdpp Require Import gmap.

(** The properties of [Object.prototype] (ECMA-262 section 20.1.3 and
    Annex B), visible through every plain object. *)
Inductive proto_member :=
| PConstructor | PHasOwnProperty | PIsPrototypeOf | PPropertyIsEnumerable
| PToLocaleString | PToString | PValueOf | PProto
| PDefineGetter | PDefineSetter | PLookupGetter | PLookupSetter.

Definition proto_name (m : proto_member) : jstr :=
  match m with
  | PConstructor => lit "constructor"
  | PHasOwnProperty => lit "hasOwnProperty"
  | PIsPrototypeOf => lit "isPrototypeOf"
  | PPropertyIsEnumerable => lit "propertyIsEnumerable"
  | PToLocaleString => lit "toLocaleString"
  | PToString => lit "toString"
  | PValueOf => lit "valueOf"
  | PProto => lit "__proto__"
  | PDefineGetter => lit "__defineGetter__"
  | PDefineSetter => lit "__defineSetter__"
  | PLookupGetter => lit "__lookupGetter__"
  | PLookupSetter => lit "__lookupSetter__"
  end.

Definition proto_members : list proto_member :=
  [PConstructor; PHasOwnProperty; PIsPrototypeOf; PPropertyIsEnumerable;
   PToLocaleString; PToString; PValueOf; PProto;
   PDefineGetter; PDefineSetter; PLookupGetter; PLookupSetter].

(** The inherited property a key reads on a plain object. *)
Definition proto_lookup (k : jstr) : option proto_member :=
  snd <$> list_find (fun m => proto_name m = k) proto_members.

Inductive jsval :=
| JUndefined
| JString (s : jstr)
| JProto (m : proto_member).

#[export] Instance proto_member_eq_dec : EqDecision proto_member.
Proof. solve_decision. Defined.

#[export] Instance jsval_eq_dec : EqDecision jsval.
Proof. solve_decision. Defined.

(** [obj[k]] on a plain object with own properties [own]: an own
    property, else an inherited one, else [undefined]. *)
Definition js_get (own : gmap jstr jsval) (k : jstr) : jsval :=
  match own !! k with
  | Some v => v
  | None => match proto_lookup k with Some m => JProto m | None => JUndefined end
  end.

(** ECMA-262 ToString, for the values that are not functions:
    [Object.prototype] itself (the value of [__proto__]) prints as
    [[object Object]]; a built-in function prints as its native source. *)
Definition to_string (v : jsval) : jstr :=
  match v with
  | JUndefined => lit "undefined"
  | JString s => s
  | JProto PProto => lit "[object Object]"
  | JProto m => lit "function " ++ proto_name m ++ lit "() { [native code] }"
  end.

(** ECMA-262 ToBoolean: [undefined] and the empty string are falsy,
    functions and objects truthy. *)
Definition truthy (v : jsval) : bool :=
  match v with
  | JUndefined => false
  | JString s => bool_decide (s <> [])
  | JProto _ => true
  end.

(** ECMA-262 IsCallable: every member of [Object.prototype] but
    [__proto__] (whose value is [Object.prototype]) is a function. *)
Definition callable (v : jsval) : bool :=
  match v with
  | JProto PProto => false
  | JProto _ => true
  | _ => false
  end.

(** [replaceValue(matched, position, string)] called with [this]
    undefined, then ToString of the result; [None] when it throws a
    TypeError.  [Object(matched)] wraps the string, [toString] answers
    [[object Undefined]], [isPrototypeOf] of a primitive is [false]; the
    others start with ToObject(this) or Invoke(this, ...) and throw. *)
Definition call_replacer (m : proto_member) (matched : jstr) : option jstr :=
  match m with
  | PConstructor => Some matched
  | PToString => Some (lit "[object Undefined]")
  | PIsPrototypeOf => Some (lit "false")
  | _ => None
  end.

Definition ch_dollar : ascii := "$"%char.

(** ECMA-262 GetSubstitution(matched, str, position, captures = [],
    namedCaptures = undefined, template).  [$$], [$&], [$`] and [$']
    are expanded; with no captures and no named groups, [$n], [$nn] and
    [$<] stand for themselves, which the last case produces one code unit
    at a time. *)
Fixpoint get_substitution (matched str : jstr) (position : nat) (tmpl : jstr) : jstr :=
  match tmpl with
  | [] => []
  | c :: tl =>
      if bool_decide (c = ch_dollar) then
        match tl with
        | [] => [c]
        | d :: rest =>
            if bool_decide (d = ch_dollar) then
              ch_dollar :: get_substitution matched str position rest
            else if bool_decide (d = "&"%char) then
              matched ++ get_substitution matched str position rest
            else if bool_decide (d = "`"%char) then
              take position str ++ get_substitution matched str position rest
            else if bool_decide (d = "'"%char) then
              drop (Nat.min (position + length matched) (length str)) str
                ++ get_substitution matched str position rest
            else c :: get_substitution matched str position tl
        end
      else c :: get_substitution matched str position tl
  end.

(** [string.replace(searchValue, replaceValue)] with a string
    [searchValue]: only the first occurrence is replaced and the text is
    unchanged when there is none; a callable [replaceValue] is called on
    the match (and may throw, [None]), any other is converted with
    ToString and expanded by [GetSubstitution]. *)
Definition js_replace (s pat : jstr) (v : jsval) : option jstr :=
  match index_of pat s with
  | None => Some s
  | Some p =>
      let replacement :=
        match v with
        | JProto m => if callable v then call_replacer m pat
                      else Some (get_substitution pat s p (to_string v))
        | _ => Some (get_substitution pat s p (to_string v))
        end in
      (fun r => take p s ++ r ++ drop (p + length pat) s) <$> replacement
  end.

Definition dollar_free (t : jstr) : Prop := ch_dollar ∉ t.

#[export] Instance dollar_free_dec t : Decision (dollar_free t).
Proof. unfold dollar_free. apply _. Defined.

Lemma dollar_free_all vals :
  forallb (fun v => bool_decide (dollar_free v)) vals = true -> Forall dollar_free vals.
Proof.
  intros H. apply Forall_forall. intros v Hv.
  eapply bool_decide_eq_true_1, (proj1 (forallb_forall _ _) H), list_elem_of_In, Hv.
Qed.

(** ** Facts on [GetSubstitution] and [replace] *)

Lemma get_substitution_dollar_free matched str position t :
  dollar_free t -> get_substitution matched str position t = t.
Proof.
  unfold dollar_free. induction t as [|c t IH]; intros Hd; [done|].
  apply not_elem_of_cons in Hd as [Hc Hd].
  cbn [get_substitution]. rewrite bool_decide_false by done. by rewrite IH.
Qed.

Lemma js_replace_absent s pat v : index_of pat s = None -> js_replace s pat v = Some s.
Proof. unfold js_replace. by intros ->. Qed.

(** Replacing the first occurrence at [p] by a string without [$] splices
    the string in literally. *)
Lemma js_replace_literal s pat v p :
  index_of pat s = Some p -> dollar_free v ->
  js_replace s pat (JString v) = Some (take p s ++ v ++ drop (p + length pat) s).
Proof.
  unfold js_replace. intros -> Hv. simpl. by rewrite get_substitution_dollar_free.
Qed.

(** The first occurrence after a prefix in which the pattern does not
    occur is the one right after that prefix. *)
Lemma js_replace_after P pat R v :
  unbordered pat -> ~ occurs pat P -> dollar_free v ->
  js_replace (P ++ pat ++ R) pat (JString v) = Some (P ++ v ++ R).
Proof.
  intros Hub Hno Hv. rewrite (js_replace_literal _ _ _ (length P)); [|by apply index_of_after|done].
  rewrite take_app_length. do 3 f_equal.
  rewrite drop_app_add, drop_app_length. done.
Qed.

(** Putting the matched text back in place of the first occurrence gives
    the text unchanged. *)
Lemma index_of_splice s pat p :
  index_of pat s = Some p -> take p s ++ pat ++ drop (p + length pat) s = s.
Proof.
  intros [Hocc _]%index_of_Some. unfold occurs_at in Hocc.
  apply starts_with_spec in Hocc as [r Hr].
  rewrite <- drop_drop, Hr, drop_app_length, <- Hr. apply take_drop.
Qed.

(** Two values whose replacement is the matched text: the string [$&]
    ([GetSubstitution] gives the match) and [Object.prototype.constructor]
    (called as a replacer it returns [Object(match)], whose [ToString] is
    the match).  [replace] with either leaves every text as it is. *)
Lemma js_replace_matched s pat :
  js_replace s pat (JString (lit "$&")) = Some s /\ js_replace s pat (JProto PConstructor) = Some s.
Proof.
  unfold js_replace. destruct (index_of pat s) as [p|] eqn:E; [|done].
  pose proof (index_of_splice s pat p E) as Hs. simpl. rewrite app_nil_r. by rewrite Hs.
Qed.
