(* ===== verification/Substitute.v ===== *)
(** * The substitution of one asset

    The first [.then] callback of [replaceAssets] (src/InjectTemplate.js,
    lines 77-86): for each match, in order, record the data in [cache]
    when [cache[name]] is falsy, then [target = target.replace(tag,
    data)].  It is compared with the spec's substitution (section 4.1,
    step 5), which replaces every marker found by the scan by its value
    at once ([splice]). *)

From S2P Require Import Prelude Regex JsString.
From stdpp Require Import gmap.
Import Marker.

(** The own properties of the object [cache = {}] of line 44. *)
Abbreviation cache_obj := (gmap jstr jsval).

(** [cache[name]]: an own property, else a member of [Object.prototype],
    else [undefined]. *)
Definition cache_get (cache : cache_obj) (name : jstr) : jsval := js_get cache name.

(** [res.forEach((data, index) => ...)] over the matches [tags[index]]
    paired with the resolved data [res[index]]: the cache as the loop
    leaves it, and the new [target], or [None] when a [replace] throws
    (the callback then rejects, after the cache writes already made). *)
Fixpoint then_replace (cache : cache_obj) (target : jstr)
    (items : list ((jstr * jstr) * jsval)) : cache_obj * option jstr :=
  match items with
  | [] => (cache, Some target)
  | ((tag, name), data) :: items' =>
      let cache' :=
        if truthy (cache_get cache name) then cache else <[name := data]> cache in
      match js_replace target tag data with
      | Some target' => then_replace cache' target' items'
      | None => (cache', None)
      end
  end.

(** The spec's substitution: the gaps of the scan with the values in
    place of the markers. *)
Definition splice (ms : list (jstr * jstr)) (vals : list jstr) (tail : jstr) : jstr :=
  assemble (zip ms.*1 vals) tail.

(** The matches of a scan, as [matchAll] reports them. *)
Definition tags_of (ms : list (jstr * jstr)) : list (jstr * jstr) :=
  (fun '(_, n) => (mk_tag n, n)) <$> ms.

(** No marker text occurs in the output built before its own position
    (the text before it, [acc ++ g]).  A boolean, so that it evaluates. *)
Fixpoint clean (acc : jstr) (ms : list (jstr * jstr)) (vals : list jstr) : bool :=
  match ms, vals with
  | (g, n) :: ms', v :: vals' =>
      bool_decide (index_of (mk_tag n) (acc ++ g) = None) && clean (acc ++ g ++ v) ms' vals'
  | _, _ => true
  end.

(** The witness: two markers, one of them twice, and a value with HTML. *)
Definition demo_page : jstr :=
  lit "<p>" ++ mk_tag (lit "header") ++ lit "<i>" ++ mk_tag (lit "footer")
    ++ mk_tag (lit "header").

Lemma match_all_tags_of s : match_all s = tags_of (scan s).1.
Proof. reflexivity. Qed.

Lemma splice_cons g n ms v vals tail :
  splice ((g, n) :: ms) (v :: vals) tail = g ++ v ++ splice ms vals tail.
Proof. reflexivity. Qed.

Lemma then_replace_assemble cache acc ms vals tail :
  length vals = length ms ->
  Forall (fun m => space_free m.2) ms ->
  Forall dollar_free vals ->
  clean acc ms vals = true ->
  (then_replace cache (acc ++ assemble (tag_items ms) tail)
     (zip (tags_of ms) (JString <$> vals))).2 = Some (acc ++ splice ms vals tail).
Proof.
  revert cache acc vals. induction ms as [|[g n] ms IH];
    intros cache acc [|v vals] Hl Hn Hv Hc; simplify_eq; [reflexivity|].
  change (assemble (tag_items ((g, n) :: ms)) tail)
    with (g ++ mk_tag n ++ assemble (tag_items ms) tail).
  change (zip (tags_of ((g, n) :: ms)) (JString <$> v :: vals))
    with (((mk_tag n, n), JString v) :: zip (tags_of ms) (JString <$> vals)).
  cbn [then_replace].
  apply Forall_cons in Hn as [Hn1 Hn]. apply Forall_cons in Hv as [Hv1 Hv].
  apply andb_prop in Hc as [Hc1%bool_decide_eq_true_1 Hc].
  rewrite (app_assoc acc g), js_replace_after; [| by apply RegexTheorems.mk_tag_unbordered
    | by apply index_of_None_not_occurs | done].
  replace ((acc ++ g) ++ v ++ assemble (tag_items ms) tail)
    with ((acc ++ g ++ v) ++ assemble (tag_items ms) tail) by (by rewrite <- !app_assoc).
  rewrite IH by done.
  by rewrite splice_cons, <- !app_assoc.
Qed.

(** The first match of [matchAll] occurs in the text. *)
Lemma match_all_first_occurs s tag n ms :
  match_all s = (tag, n) :: ms -> occurs tag s.
Proof.
  rewrite match_all_tags_of. destruct (RegexTheorems.scan_fuel_decompose (length s) s) as [Hs _].
  fold (scan s) in Hs. destruct (scan s).1 as [|[g n'] ms'] eqn:E; [done|]. intros [= <- _ _].
  exists g, (assemble (tag_items ms') (scan s).2). rewrite Hs at 1. done.
Qed.

(** When the first datum is a function of [Object.prototype] whose call
    throws, the first [replace] throws and the callback rejects. *)
Lemma then_replace_first_throws cache s tag n ms m vs :
  occurs tag s -> callable (JProto m) = true -> call_replacer m tag = None ->
  (then_replace cache s (zip ((tag, n) :: ms) (JProto m :: vs))).2 = None.
Proof.
  intros Ho Hc Hr. destruct (occurs_index_of _ _ Ho) as [p Hp].
  cbn [zip then_replace]. unfold js_replace. rewrite Hp, Hc, Hr. done.
Qed.

(** Data whose [replace] leaves every text unchanged leave the target
    unchanged, whatever the matches. *)
Lemma then_replace_fixed cache s items :
  Forall (fun it => forall t tag, js_replace t tag it.2 = Some t) items ->
  (then_replace cache s items).2 = Some s.
Proof.
  revert cache. induction items as [|[[tag name] data] items IH]; intros cache Hf; [done|].
  apply Forall_cons in Hf as [Hd Hf]. simpl in Hd. cbn [then_replace]. rewrite Hd. by apply IH.
Qed.

Lemma dollar_free_mk_tag n : dollar_free n -> dollar_free (mk_tag n).
Proof.
  unfold dollar_free, mk_tag. intros Hn. rewrite !elem_of_app. intros [H | [H | H]];
    [revert H | done | revert H]; vm_compute; intros H; repeat (inversion H as [|? ? ? H']; clear H; rename H' into H).
Qed.

(** ** Theorems of the substitution *)

(** C11: The code's sequence of first-match replacements computes the spec's
    simultaneous substitution of the scanned markers, for every asset
    text [s], when the data are strings without [$] and no marker text
    occurs in the output before its own position. *)
Theorem then_replace_simultaneous cache s vals :
  length vals = length (scan s).1 ->
  Forall dollar_free vals ->
  clean [] (scan s).1 vals = true ->
  (then_replace cache s (zip (match_all s) (JString <$> vals))).2
    = Some (splice (scan s).1 vals (scan s).2).
Proof.
  intros Hl Hv Hc. destruct (RegexTheorems.scan_fuel_decompose (length s) s) as [Hs Hn].
  fold (scan s) in Hs, Hn.
  rewrite match_all_tags_of. rewrite Hs at 1.
  exact (then_replace_assemble cache [] _ vals _ Hl Hn Hv Hc).
Qed.

Lemma then_replace_simultaneous_witness :
  (then_replace ∅ demo_page
     (zip (match_all demo_page) (JString <$> [lit "<b>H</b>"; lit "F"; lit "<b>H</b>"]))).2
    = Some (splice (scan demo_page).1 [lit "<b>H</b>"; lit "F"; lit "<b>H</b>"] (scan demo_page).2).
Proof.
  apply then_replace_simultaneous; [reflexivity | | vm_compute; reflexivity].
  apply dollar_free_all. vm_compute. reflexivity.
Defined.

(** C15: When the value of a page's first marker holds the text of its
    second marker, the second [target.replace(tag, data)] rewrites the
    copy the first value brought in: the second value lands where the
    first marker was and the page keeps its own second marker, while the
    spec's substitution, which is not recursive, puts each value in place
    of its own marker. *)
Theorem then_replace_marker_in_value cache s g1 g2 tail a b v :
  scan s = ([(g1, a); (g2, b)], tail) ->
  index_of (mk_tag a) g1 = None -> index_of (mk_tag b) g1 = None ->
  dollar_free b -> dollar_free v ->
  (then_replace cache s (zip (match_all s) [JString (mk_tag b); JString v])).2
    = Some (g1 ++ v ++ g2 ++ mk_tag b ++ tail) /\
  splice (scan s).1 [mk_tag b; v] (scan s).2 = g1 ++ mk_tag b ++ g2 ++ v ++ tail.
Proof.
  intros Hs Ha Hb Hdb Hv. destruct (RegexTheorems.scan_fuel_decompose (length s) s) as [Hd Hf].
  fold (scan s) in Hd, Hf. rewrite Hs in Hd, Hf.
  apply Forall_cons in Hf as [Hfa Hf]. apply Forall_cons in Hf as [Hfb _]. simpl in Hfa, Hfb.
  split; [|by rewrite Hs].
  rewrite match_all_tags_of, Hs. cbn [fst snd] in Hd |- *. rewrite Hd at 1.
  change (tags_of [(g1, a); (g2, b)]) with [(mk_tag a, a); (mk_tag b, b)].
  change (assemble (tag_items [(g1, a); (g2, b)]) tail)
    with (g1 ++ mk_tag a ++ g2 ++ mk_tag b ++ tail).
  cbn [zip then_replace].
  rewrite js_replace_after; [| by apply RegexTheorems.mk_tag_unbordered
    | by apply index_of_None_not_occurs | by apply dollar_free_mk_tag].
  rewrite js_replace_after; [done | by apply RegexTheorems.mk_tag_unbordered
    | by apply index_of_None_not_occurs | done].
Qed.

(** C14: A value [$&] puts the marker itself back: whatever the page and
    its matches, when every datum is the string [$&] the target comes out
    unchanged and the page keeps all its markers although their data
    resolved. *)
Theorem then_replace_dollar_pattern cache s items :
  Forall (fun it => it.2 = JString (lit "$&")) items ->
  (then_replace cache s items).2 = Some s.
Proof.
  intros Hf. apply then_replace_fixed. eapply Forall_impl; [exact Hf|].
  intros it -> t tag. apply js_replace_matched.
Qed.

(** The text the callback produces does not depend on the cache. *)
Lemma then_replace_target_indep c1 c2 t items :
  (then_replace c1 t items).2 = (then_replace c2 t items).2.
Proof.
  revert c1 c2 t. induction items as [|[[tag name] data] items IH]; intros c1 c2 t;
    [done|]. simpl. destruct (js_replace t tag data); [apply IH | done].
Qed.

Lemma then_replace_marker_in_value_witness :
  (then_replace ∅ (mk_tag (lit "a") ++ lit "X" ++ mk_tag (lit "b"))
     (zip (match_all (mk_tag (lit "a") ++ lit "X" ++ mk_tag (lit "b")))
        [JString (mk_tag (lit "b")); JString (lit "B")])).2
    = Some ([] ++ lit "B" ++ lit "X" ++ mk_tag (lit "b") ++ []) /\
  splice (scan (mk_tag (lit "a") ++ lit "X" ++ mk_tag (lit "b"))).1 [mk_tag (lit "b"); lit "B"]
    (scan (mk_tag (lit "a") ++ lit "X" ++ mk_tag (lit "b"))).2
    = [] ++ mk_tag (lit "b") ++ lit "X" ++ lit "B" ++ [].
Proof.
  apply (then_replace_marker_in_value ∅ _ [] (lit "X") [] (lit "a") (lit "b") (lit "B"));
    discharge_concrete.
Defined.

Lemma then_replace_dollar_pattern_witness :
  (then_replace ∅ (lit "a" ++ mk_tag (lit "x"))
     (zip (match_all (lit "a" ++ mk_tag (lit "x"))) [JString (lit "$&")])).2
    = Some (lit "a" ++ mk_tag (lit "x")).
Proof. apply then_replace_dollar_pattern. discharge_concrete. Defined.
