(* ===== verification/Assets.v ===== *)
(** * The asset object and the data source

    The object [assets] handed to the [processAssets] callback (it is
    [compilation.assets], which line 89 writes): keys in creation order
    with their text content, as an association list.  [Object.keys] of
    line 46 lists array-index keys first, in ascending numeric order, and
    the other keys in creation order ([object_keys]).  The assignment
    [compilation.assets[key] = {source, size}] of lines 89-98 replaces
    the value of an existing key in place ([store_set]).  The data source
    [RemoteData] (lines 5-11) is one instance of the [DataSource]
    capability the spec describes (a name resolves or rejects). *)

From S2P Require Import Prelude JsString.
From stdpp Require Import sorting gmap.

(** An asset object: each key with the text [source()] returns. *)
Abbreviation asset_set := (list (jstr * jstr)).

(** The keys are distinct, as the keys of a JavaScript object are. *)
Definition well_keyed (a : asset_set) : Prop := NoDup a.*1.

#[export] Instance well_keyed_dec a : Decision (well_keyed a).
Proof. unfold well_keyed. apply _. Defined.

(** [assets[key].source()]. *)
Fixpoint asset_get (a : asset_set) (k : jstr) : option jstr :=
  match a with
  | [] => None
  | (k', v) :: a' => if bool_decide (k = k') then Some v else asset_get a' k
  end.

(** [obj[k] = v]: an existing key keeps its place, a new key goes last. *)
Fixpoint store_set (a : asset_set) (k v : jstr) : asset_set :=
  match a with
  | [] => [(k, v)]
  | (k', v') :: a' =>
      if bool_decide (k = k') then (k, v) :: a' else (k', v') :: store_set a' k v
  end.

(** [size()] of the written source object: [this.source().length]. *)
Definition asset_size (content : jstr) : nat := length content.

(** ** [Object.keys] *)

Definition is_digit (c : ascii) : bool :=
  bool_decide (48 <= nat_of_ascii c <= 57).

(** The numeric value of a string of decimal digits. *)
Fixpoint digits_value_acc (acc : N) (k : jstr) : N :=
  match k with
  | [] => acc
  | c :: k' => digits_value_acc (10 * acc + N.of_nat (nat_of_ascii c - 48)) k'
  end.

Definition digits_value (k : jstr) : N := digits_value_acc 0 k.

(** ECMA-262 array index: the canonical decimal string of an integer
    [i] with [0 <= i < 2^32 - 1] (no sign, no leading zero). *)
Definition is_array_index (k : jstr) : bool :=
  match k with
  | [] => false
  | c :: rest =>
      forallb is_digit k
      && (bool_decide (rest = []) || negb (bool_decide (c = "0"%char)))
      && bool_decide (digits_value k < 4294967295)%N
  end.

Definition index_le (k1 k2 : jstr) : Prop := (digits_value k1 <= digits_value k2)%N.

#[export] Instance index_le_dec : RelDecision index_le.
Proof. intros k1 k2. unfold index_le. apply _. Defined.

(** ECMA-262 OrdinaryOwnPropertyKeys restricted to string keys. *)
Definition object_keys (a : asset_set) : list jstr :=
  merge_sort index_le (filter (fun k => is_array_index k = true) a.*1)
    ++ filter (fun k => is_array_index k = false) a.*1.

(** ** The plugin's options *)

(** The options object the plugin is built with; [webpack.config.js]
    passes a [url]. *)
Record plugin_options := { opt_url : option jstr }.

(** [constructor(options) { this.options = options || {}; }]: a missing
    options object becomes [{}].  Nothing in [replaceAssets] reads it. *)
Definition make_plugin (options : option plugin_options) : plugin_options :=
  default {| opt_url := None |} options.

(** [new InjectTemplate({ url: "http://www.test.com" })] of
    [webpack.config.js]. *)
Definition config_options : option plugin_options :=
  Some {| opt_url := Some (lit "http://www.test.com") |}.

(** ** The data source *)

(** How the promise a data source returns settles. *)
Inductive outcome :=
| Resolves (v : jsval)
| Rejects.

(** The capability [fetch(name) -> promise<string>] of the spec: the
    settlement of the promise for each name.  When it settles is left to
    the scheduler of [Engine]. *)
Class DataSource := fetch : jstr -> outcome.

(** The object [data] of lines 6-9. *)
Definition remote_data_obj : gmap jstr jsval :=
  <[lit "header" := JString (lit "<div>THIS IS HEADER</div>")]>
  (<[lit "footer" := JString (lit "<div>THIS IS FOOTER</div>")]> ∅).

(** [RemoteData] of lines 5-11: [Promise.resolve(data[key])]; a key the
    object lacks reads [undefined], a key naming a member of
    [Object.prototype] reads that member (no member has a [then], so the
    promise resolves with it). *)
Definition remote_data (key : jstr) : outcome := Resolves (js_get remote_data_obj key).

#[export] Instance RemoteData : DataSource := remote_data.

(** ** Facts on the asset object *)

(** [Object.keys] lists every key exactly once. *)
Lemma object_keys_perm a : object_keys a ≡ₚ a.*1.
Proof.
  unfold object_keys. rewrite merge_sort_Permutation.
  rewrite (list_filter_iff (fun k => is_array_index k = false)
                           (fun k => ~ is_array_index k = true)).
  - apply filter_app_complement.
  - intros k. destruct (is_array_index k); split; congruence.
Qed.

(** With no array-index key, [Object.keys] is the creation order. *)
Lemma object_keys_plain a :
  Forall (fun k => is_array_index k = false) a.*1 -> object_keys a = a.*1.
Proof.
  intros Hf. unfold object_keys.
  rewrite (filter_Forall_id (fun k => is_array_index k = false)) by done.
  rewrite (filter_Forall_nil (fun k => is_array_index k = true)); [reflexivity|].
  eapply Forall_impl; [exact Hf | intros k ->; done].
Qed.

Lemma asset_get_store_set_eq a k v : asset_get (store_set a k v) k = Some v.
Proof.
  induction a as [|[k' v'] a IH]; simpl.
  - by rewrite bool_decide_true.
  - case_bool_decide; simpl; [by rewrite bool_decide_true|].
    by rewrite bool_decide_false, IH.
Qed.

Lemma asset_get_store_set_ne a k k' v :
  k <> k' -> asset_get (store_set a k v) k' = asset_get a k'.
Proof.
  intros Hne. induction a as [|[k'' v''] a IH]; simpl.
  - by rewrite bool_decide_false.
  - case_bool_decide as Hk; simpl.
    + subst. by rewrite !(bool_decide_false (k' = k'')) by congruence.
    + by case_bool_decide; [|rewrite IH].
Qed.

Lemma asset_get_Some a k : is_Some (asset_get a k) <-> k ∈ a.*1.
Proof.
  induction a as [|[k' v'] a IH]; simpl.
  - split; [by intros [? ?] | intros Hin; by apply elem_of_nil in Hin].
  - rewrite elem_of_cons, <- IH. case_bool_decide; [subst; split; eauto|].
    split; [eauto | intros [-> | ?]; [congruence | done]].
Qed.

Lemma store_set_keys a k v : k ∈ a.*1 -> (store_set a k v).*1 = a.*1.
Proof.
  induction a as [|[k' v'] a IH]; intros Hin; [by apply elem_of_nil in Hin|].
  cbn [store_set]. rewrite fmap_cons, elem_of_cons in Hin.
  case_bool_decide as Hk; [by subst|]. rewrite !fmap_cons. f_equal.
  apply IH. destruct Hin as [Hin|Hin]; [simpl in Hin; congruence | done].
Qed.

Lemma asset_get_None a k : k ∉ a.*1 -> asset_get a k = None.
Proof. intros Hk. destruct (asset_get a k) eqn:E; [|done]. exfalso. apply Hk, asset_get_Some. by eexists. Qed.

Lemma asset_get_elem_of a k c : NoDup a.*1 -> (k, c) ∈ a -> asset_get a k = Some c.
Proof.
  induction a as [|[k' c'] a IH]; intros Hnd Hin; [by apply elem_of_nil in Hin|].
  simpl in Hnd. apply NoDup_cons in Hnd as [Hnin Hnd]. simpl.
  apply elem_of_cons in Hin as [Heq | Hin]; [simplify_eq; by rewrite bool_decide_true|].
  rewrite bool_decide_false; [by apply IH|]. intros ->. apply Hnin.
  apply list_elem_of_fmap. by exists (k', c).
Qed.

(** Two asset objects with the same keys in the same order and the same
    content under every key are equal. *)
Lemma asset_get_ext a b :
  a.*1 = b.*1 -> NoDup a.*1 -> (forall k, asset_get a k = asset_get b k) -> a = b.
Proof.
  revert b. induction a as [|[k v] a IH]; intros [|[k' v'] b] Hk Hnd Hg; try done.
  simpl in Hk. injection Hk as <- Hk. simpl in Hnd. apply NoDup_cons in Hnd as [Hnin Hnd].
  pose proof (Hg k) as Hv. simpl in Hv. rewrite !bool_decide_true in Hv by done. simplify_eq.
  f_equal. apply IH; [done | done|]. intros k'.
  destruct (decide (k' = k)) as [->|Hne].
  - rewrite (asset_get_None a k Hnin), (asset_get_None b k); [done | unfold fmap in *; by rewrite <- Hk].
  - specialize (Hg k'). simpl in Hg. by rewrite !bool_decide_false in Hg.
Qed.

(** Rewriting every content in place keeps the keys and reads back. *)
Lemma asset_get_fmap (f : jstr -> jstr -> jstr) a k :
  asset_get ((fun '(k', c) => (k', f k' c)) <$> a) k = f k <$> asset_get a k.
Proof.
  induction a as [|[k' c] a IH]; [done|]. simpl. case_bool_decide; [by subst | done].
Qed.

#[export] Instance index_le_total : Total index_le.
Proof. intros k1 k2. unfold index_le. lia. Qed.

(** The numeric value of a digit string is read in decimal: a digit
    added at the end multiplies the value by ten and adds the digit. *)
Lemma digits_value_acc_snoc acc k c :
  digits_value_acc acc (k ++ [c]) = (10 * digits_value_acc acc k + N.of_nat (nat_of_ascii c - 48))%N.
Proof. revert acc. induction k as [|c' k IH]; intros acc; [done|]. apply IH. Qed.


#[export] Hint Rewrite asset_get_store_set_eq : jstr_simpl.
#[export] Hint Resolve object_keys_perm store_set_keys : jstr.
