(* ===== verification/Engine.v ===== *)
(** * The engine: [replaceAssets]

    [InjectTemplate.replaceAssets] (src/InjectTemplate.js, lines 41-106).
    Its synchronous part, run inside the executor of [new Promise], is the
    loop over [Object.keys(assets)] ([sync_loop]): a key that fails the
    eligibility test resolves the promise when it is the last key; an
    HTML key has its content scanned, one entry [{tag, name, data}] per
    match where [data] is [cache[name]] when truthy and [RemoteData(name)]
    otherwise ([build_tags]), and starts a promise chain ([task]).  The
    chains then run interleaved, in an order fixed by when the data
    settle: [step] lets any chain take its next microtask ([Promise.all]
    settling and the first [.then], the second [.then] writing the asset,
    the third [.then] resolving when the asset is the last key), or skip
    the chain when [Promise.all] rejects. *)

From S2P Require Import Prelude Regex JsString Substitute Assets.
From stdpp Require Import gmap.
Import HtmlTest Marker.

(** The [data] field of a [tags] entry: a value read from [cache], or
    the promise of [RemoteData(name)]. *)
Inductive pending :=
| PValue (v : jsval)
| PFetch (name : jstr).

Record tag_entry := { te_tag : jstr; te_name : jstr; te_data : pending }.

(** How far the promise chain of one HTML asset has run. *)
Inductive phase :=
| Waiting
| Replaced (target : jstr)
| Written
| Done
| Failed.

(** One HTML asset's chain: its key, the content read at line 60, its
    [tags], [isLastAsset], and its phase. *)
Record task := {
  t_key : jstr;
  t_target : jstr;
  t_tags : list tag_entry;
  t_last : bool;
  t_phase : phase }.

(** The state [replaceAssets] works on: the asset object, [cache], the
    names passed to [RemoteData] in call order, the chains, and whether
    [resolve()] has been called. *)
Record state := {
  st_assets : asset_set;
  st_cache : cache_obj;
  st_fetches : list jstr;
  st_tasks : list task;
  st_resolved : bool }.

Definition with_phase (tk : task) (p : phase) : task :=
  {| t_key := t_key tk; t_target := t_target tk; t_tags := t_tags tk;
     t_last := t_last tk; t_phase := p |}.

Definition set_tasks (st : state) (ts : list task) : state :=
  {| st_assets := st_assets st; st_cache := st_cache st; st_fetches := st_fetches st;
     st_tasks := ts; st_resolved := st_resolved st |}.

(** [resolve()]. *)
Definition set_resolved (st : state) : state :=
  {| st_assets := st_assets st; st_cache := st_cache st; st_fetches := st_fetches st;
     st_tasks := st_tasks st; st_resolved := true |}.

(** Lines 64-74: one entry per match; [cache[name] ? cache[name] :
    RemoteData(name)]. Returns the entries and the names fetched. *)
Fixpoint build_tags (cache : cache_obj) (ms : list (jstr * jstr)) : list tag_entry * list jstr :=
  match ms with
  | [] => ([], [])
  | (tag, name) :: ms' =>
      let '(tes, fs) := build_tags cache ms' in
      if truthy (cache_get cache name)
      then ({| te_tag := tag; te_name := name; te_data := PValue (cache_get cache name) |} :: tes, fs)
      else ({| te_tag := tag; te_name := name; te_data := PFetch name |} :: tes, name :: fs)
  end.

(** What [cache[name] ? cache[name] : RemoteData(name)] gives while
    [cache] has no own property: the inherited member, or a fetch. *)
Definition data_from_empty (name : jstr) : pending :=
  match proto_lookup name with
  | Some m => PValue (JProto m)
  | None => PFetch name
  end.

(** Lines 59-76 for one HTML key: read the content, scan it, build
    [tags]; the new chain and the names passed to [RemoteData]. *)
Definition new_task (a : asset_set) (cache : cache_obj) (key : jstr) (is_last : bool)
    : task * list jstr :=
  let target := default [] (asset_get a key) in
  let '(tes, fs) := build_tags cache (match_all target) in
  ({| t_key := key; t_target := target; t_tags := tes; t_last := is_last; t_phase := Waiting |}, fs).

Definition start_task (st : state) (key : jstr) (is_last : bool) : state :=
  let r := new_task (st_assets st) (st_cache st) key is_last in
  {| st_assets := st_assets st; st_cache := st_cache st;
     st_fetches := st_fetches st ++ r.2;
     st_tasks := st_tasks st ++ [r.1];
     st_resolved := st_resolved st |}.

(** Lines 47-104, the synchronous loop; [last_key] is
    [assetKeys[assetKeys.length - 1]]. *)
Fixpoint sync_loop (last_key : option jstr) (keys : list jstr) (st : state) : state :=
  match keys with
  | [] => st
  | key :: keys' =>
      let is_last := bool_decide (Some key = last_key) in
      if html_test key
      then sync_loop last_key keys' (start_task st key is_last)
      else sync_loop last_key keys' (if is_last then set_resolved st else st)
  end.

Definition init_state (a : asset_set) : state :=
  {| st_assets := a; st_cache := ∅; st_fetches := []; st_tasks := []; st_resolved := false |}.

(** [replaceAssets(assets)] up to the end of its synchronous part
    ([const cache = {}] of line 44 is the empty cache). *)
Definition replace_assets (a : asset_set) : state :=
  let keys := object_keys a in
  sync_loop (last keys) keys (init_state a).

Section Chains.
Context `{DS : DataSource}.

(** How one [data] settles. *)
Definition settle_one (p : pending) : option jsval :=
  match p with
  | PValue v => Some v
  | PFetch n => match fetch n with Resolves v => Some v | Rejects => None end
  end.

(** [Promise.all(tags.map(item => item.data))]: all values, or [None]
    when one promise rejects. *)
Definition settle_all (tes : list tag_entry) : option (list jsval) :=
  mapM (fun te => settle_one (te_data te)) tes.

Definition entry_pairs (tes : list tag_entry) : list (jstr * jstr) :=
  (fun te => (te_tag te, te_name te)) <$> tes.

(** Lines 77-86 run on the current cache: the new cache and target
    ([None] when a [replace] throws). *)
Definition run_then (st : state) (tk : task) (vs : list jsval) : cache_obj * option jstr :=
  then_replace (st_cache st) (t_target tk) (zip (entry_pairs (t_tags tk)) vs).

(** [Promise.all] settling and the first [.then]: the chain holds the new
    target, or is skipped when the callback threw. *)
Definition after_settle (st : state) (i : nat) (tk : task) (vs : list jsval) : state :=
  let r := run_then st tk vs in
  {| st_assets := st_assets st; st_cache := r.1; st_fetches := st_fetches st;
     st_tasks := <[i := with_phase tk (match r.2 with Some t => Replaced t | None => Failed end)]>
                   (st_tasks st);
     st_resolved := st_resolved st |}.

(** Lines 87-99: [compilation.assets[key] = {source, size}]. *)
Definition after_write (st : state) (i : nat) (tk : task) (target : jstr) : state :=
  {| st_assets := store_set (st_assets st) (t_key tk) target; st_cache := st_cache st;
     st_fetches := st_fetches st;
     st_tasks := <[i := with_phase tk Written]> (st_tasks st);
     st_resolved := st_resolved st |}.

(** Lines 100-103: [if (isLastAsset) resolve()]. *)
Definition after_finish (st : state) (i : nat) (tk : task) : state :=
  {| st_assets := st_assets st; st_cache := st_cache st; st_fetches := st_fetches st;
     st_tasks := <[i := with_phase tk Done]> (st_tasks st);
     st_resolved := st_resolved st || t_last tk |}.

Inductive step : state -> state -> Prop :=
| step_settle st i tk vs :
    st_tasks st !! i = Some tk -> t_phase tk = Waiting ->
    settle_all (t_tags tk) = Some vs ->
    step st (after_settle st i tk vs)
| step_reject st i tk :
    st_tasks st !! i = Some tk -> t_phase tk = Waiting ->
    settle_all (t_tags tk) = None ->
    step st (set_tasks st (<[i := with_phase tk Failed]> (st_tasks st)))
| step_write st i tk target :
    st_tasks st !! i = Some tk -> t_phase tk = Replaced target ->
    step st (after_write st i tk target)
| step_finish st i tk :
    st_tasks st !! i = Some tk -> t_phase tk = Written ->
    step st (after_finish st i tk).

(** The states a run of [replaceAssets(a)] can reach. *)
Definition reachable (a : asset_set) (st : state) : Prop := rtc step (replace_assets a) st.

End Chains.

Definition html_keys (a : asset_set) : list jstr :=
  filter (fun k => html_test k = true) (object_keys a).

(** ** The invariant of the promise chains *)

#[export] Instance phase_eq_dec : EqDecision phase.
Proof. solve_decision. Defined.

Definition shape (tk : task) : jstr * jstr * list tag_entry * bool :=
  (t_key tk, t_target tk, t_tags tk, t_last tk).

(** Some chain of the last key has run to its end. *)
Definition last_done (ts : list task) : bool :=
  existsb (fun tk => t_last tk && bool_decide (t_phase tk = Done)) ts.

Section Invariant.
Context `{DS : DataSource}.

(** What the chain writes: [None] when its data reject or a [replace]
    throws. *)
Definition task_result (tk : task) : option jstr :=
  settle_all (t_tags tk) ≫= fun vs =>
    (then_replace ∅ (t_target tk) (zip (entry_pairs (t_tags tk)) vs)).2.

Definition phase_ok (tk : task) : Prop :=
  match t_phase tk with
  | Waiting => True
  | Replaced t => task_result tk = Some t
  | Written | Done => is_Some (task_result tk)
  | Failed => task_result tk = None
  end.

Definition asset_ok (a : asset_set) (tk : task) : Prop :=
  match t_phase tk with
  | Written | Done => asset_get a (t_key tk) = task_result tk
  | _ => asset_get a (t_key tk) = Some (t_target tk)
  end.

End Invariant.

Section InvariantRecord.
Context `{DS : DataSource}.
Variable a : asset_set.

Record inv (st : state) : Prop := {
  inv_shape : shape <$> st_tasks st = shape <$> st_tasks (replace_assets a);
  inv_keys : NoDup (t_key <$> st_tasks st);
  inv_other : forall k, k ∉ t_key <$> st_tasks st ->
                asset_get (st_assets st) k = asset_get a k;
  inv_resolved : st_resolved st = st_resolved (replace_assets a) || last_done (st_tasks st);
  inv_tasks : forall j tk, st_tasks st !! j = Some tk ->
                phase_ok tk /\ asset_ok (st_assets st) tk }.

End InvariantRecord.

(** A page and a script, the script created last. *)
Definition demo_site : asset_set :=
  [(lit "index.html", lit "<h1>" ++ mk_tag (lit "header")); (lit "main.js", lit "run()")].

(** A build with two pages and a script that holds a marker, created last. *)
Definition demo_build : asset_set :=
  [(lit "index.html", lit "<h1>" ++ mk_tag (lit "header"));
   (lit "about.html", mk_tag (lit "footer"));
   (lit "main.js", lit "log('" ++ mk_tag (lit "header") ++ lit "')")].

(** ** The synchronous loop *)

Section SyncLoop.
Variable last_key : option jstr.

Lemma sync_loop_assets keys st :
  st_assets (sync_loop last_key keys st) = st_assets st /\
  st_cache (sync_loop last_key keys st) = st_cache st.
Proof.
  revert st; induction keys as [|k keys IH]; intros st; [done|]. simpl.
  destruct (html_test k); [|destruct (bool_decide _)]; (edestruct IH as [-> ->]; done).
Qed.

Lemma sync_loop_resolved keys st :
  st_resolved (sync_loop last_key keys st)
  = st_resolved st || existsb (fun k => bool_decide (Some k = last_key) && negb (html_test k)) keys.
Proof.
  revert st; induction keys as [|k keys IH]; intros st; simpl; [by rewrite orb_false_r|].
  destruct (html_test k); simpl; rewrite IH; simpl.
  - by rewrite andb_false_r.
  - rewrite andb_true_r. by destruct (bool_decide _); simpl; rewrite ?orb_true_r, ?orb_false_r.
Qed.

(** The chains are started in key order, one per HTML key, on the
    unchanged store and cache. *)
Lemma sync_loop_tasks keys st :
  st_tasks (sync_loop last_key keys st)
  = st_tasks st ++ ((fun k => (new_task (st_assets st) (st_cache st) k
                                (bool_decide (Some k = last_key))).1)
                   <$> filter (fun k => html_test k = true) keys) /\
  st_fetches (sync_loop last_key keys st)
  = st_fetches st ++ concat ((fun k => (new_task (st_assets st) (st_cache st) k
                                (bool_decide (Some k = last_key))).2)
                   <$> filter (fun k => html_test k = true) keys).
Proof.
  revert st; induction keys as [|k keys IH]; intros st; simpl; [by rewrite !app_nil_r|].
  destruct (html_test k) eqn:Hk.
  - rewrite filter_cons_True by done. destruct (IH (start_task st k (bool_decide (Some k = last_key)))) as [-> ->].
    simpl. by rewrite <- !app_assoc.
  - rewrite filter_cons_False by congruence.
    destruct (bool_decide _); [|apply IH]. by destruct (IH (set_resolved st)) as [-> ->].
Qed.

End SyncLoop.

(** ** Theorems of the synchronous part *)

Lemma build_tags_empty ms :
  build_tags ∅ ms
  = ((fun '(tag, name) => {| te_tag := tag; te_name := name; te_data := data_from_empty name |})
       <$> ms,
     filter (fun n => proto_lookup n = None) ms.*2).
Proof.
  induction ms as [|[tag name] ms IH]; [done|]. cbn [build_tags]. rewrite IH.
  unfold cache_get, js_get, data_from_empty. rewrite lookup_empty. simpl.
  destruct (proto_lookup name) eqn:E; simpl.
  - rewrite filter_cons_False by congruence. done.
  - rewrite filter_cons_True by done. done.
Qed.

Lemma replace_assets_state a :
  st_assets (replace_assets a) = a /\ st_cache (replace_assets a) = ∅ /\
  st_tasks (replace_assets a)
  = (fun k => (new_task a ∅ k (bool_decide (Some k = last (object_keys a)))).1) <$> html_keys a /\
  st_fetches (replace_assets a)
  = concat ((fun k => (new_task a ∅ k (bool_decide (Some k = last (object_keys a)))).2) <$> html_keys a).
Proof.
  unfold replace_assets. destruct (sync_loop_assets (last (object_keys a)) (object_keys a) (init_state a)) as [-> ->].
  destruct (sync_loop_tasks (last (object_keys a)) (object_keys a) (init_state a)) as [-> ->].
  done.
Qed.

(** C10: The synchronous loop calls [RemoteData] once for every marker of
    every HTML asset, duplicates included, in key order and then text
    order, except for names of [Object.prototype] members: [cache] is only
    written by the callbacks, which run after the loop, so [cache[name]]
    is never an own property when it is read. *)
Theorem replace_assets_fetches a :
  st_fetches (replace_assets a)
  = concat ((fun k => filter (fun n => proto_lookup n = None)
                        (match_all (default [] (asset_get a k))).*2) <$> html_keys a).
Proof.
  destruct (replace_assets_state a) as (_ & _ & _ & ->). f_equal. apply list_fmap_ext.
  intros _ k _. unfold new_task. rewrite build_tags_empty. done.
Qed.

Lemma initial_resolved a k :
  last (object_keys a) = Some k -> st_resolved (replace_assets a) = negb (html_test k).
Proof.
  intros Hk. unfold replace_assets. rewrite sync_loop_resolved. simpl.
  rewrite Hk. apply (existsb_last_eq (fun x => negb (html_test x))), last_Some_elem_of, Hk.
Qed.

Section InvariantLemmas.

Lemma fmap_with_phase {B} (f : task -> B) (ts : list task) (i : nat) tk p :
  ts !! i = Some tk -> f (with_phase tk p) = f tk ->
  f <$> <[i := with_phase tk p]> ts = f <$> ts.
Proof.
  intros Hi Hf. rewrite list_fmap_insert, Hf. apply list_insert_id.
  by rewrite list_lookup_fmap, Hi.
Qed.

Lemma last_done_with_phase (ts : list task) (i : nat) tk p :
  ts !! i = Some tk -> t_phase tk <> Done ->
  last_done (<[i := with_phase tk p]> ts) = last_done ts || (t_last tk && bool_decide (p = Done)).
Proof.
  intros Hi Hp. unfold last_done. erewrite existsb_insert; [done | done |].
  rewrite bool_decide_false by done. apply andb_false_r.
Qed.

Lemma task_keys_ne st i j tk tk' :
  NoDup (t_key <$> st_tasks st) -> st_tasks st !! i = Some tk ->
  st_tasks st !! j = Some tk' -> i <> j -> t_key tk <> t_key tk'.
Proof.
  intros Hnd Hi Hj Hij Heq. apply Hij.
  eapply NoDup_lookup; [exact Hnd | by rewrite list_lookup_fmap, Hi | by rewrite list_lookup_fmap, Hj, Heq].
Qed.

End InvariantLemmas.

Section Preservation.
Context `{DS : DataSource}.
Variable a : asset_set.
Hypothesis Hwk : well_keyed a.

Lemma replace_assets_keys : t_key <$> st_tasks (replace_assets a) = html_keys a.
Proof.
  destruct (replace_assets_state a) as (_ & _ & -> & _).
  rewrite <- list_fmap_compose. rewrite <- (list_fmap_id (html_keys a)) at 2.
  apply list_fmap_ext. intros _ k _. unfold new_task, compose. by destruct (build_tags _ _).
Qed.

Lemma html_keys_NoDup : NoDup (html_keys a).
Proof. apply NoDup_filter. rewrite object_keys_perm. exact Hwk. Qed.

Lemma replace_assets_task j tk :
  st_tasks (replace_assets a) !! j = Some tk ->
  t_phase tk = Waiting /\ t_key tk ∈ html_keys a /\
  asset_get a (t_key tk) = Some (t_target tk) /\
  t_tags tk = (build_tags ∅ (match_all (t_target tk))).1 /\
  t_last tk = bool_decide (Some (t_key tk) = last (object_keys a)).
Proof.
  destruct (replace_assets_state a) as (_ & _ & -> & _).
  intros (k & Hk & Hj)%list_lookup_fmap_Some. subst tk.
  assert (Hin : k ∈ a.*1).
  { rewrite <- object_keys_perm. eapply list_subseteq_filter, list_elem_of_lookup_2, Hj. }
  apply asset_get_Some in Hin as [v Hv].
  unfold new_task. destruct (build_tags _ _) eqn:Eb; simpl. rewrite Eb.
  split; [done | split; [eapply list_elem_of_lookup_2, Hj | by rewrite Hv]].
Qed.

Lemma replace_assets_task_of k :
  k ∈ html_keys a -> exists j tk, st_tasks (replace_assets a) !! j = Some tk /\ t_key tk = k.
Proof.
  intros Hk. apply list_elem_of_lookup in Hk as [j Hj].
  rewrite <- replace_assets_keys, list_lookup_fmap in Hj.
  destruct (st_tasks (replace_assets a) !! j) as [tk|] eqn:E; simplify_eq/=. eauto.
Qed.

Lemma inv_init : inv a (replace_assets a).
Proof.
  constructor.
  - done.
  - rewrite replace_assets_keys. apply html_keys_NoDup.
  - by destruct (replace_assets_state a) as (-> & _).
  - assert (last_done (st_tasks (replace_assets a)) = false) as ->; [|by rewrite orb_false_r].
    apply not_true_is_false. intros (tk & Hin & Htk)%existsb_exists.
    apply list_elem_of_In, list_elem_of_lookup in Hin as [j Hj].
    destruct (replace_assets_task j tk Hj) as (Hw & _). rewrite Hw in Htk.
    by rewrite andb_false_r in Htk.
  - intros j tk Hj. destruct (replace_assets_task j tk Hj) as (Hw & _ & Hget & _).
    unfold phase_ok, asset_ok. rewrite Hw. split; [done|].
    by destruct (replace_assets_state a) as (-> & _).
Qed.

Lemma asset_ok_store_other (as_ : asset_set) k v tk :
  t_key tk <> k -> asset_ok (store_set as_ k v) tk <-> asset_ok as_ tk.
Proof.
  intros Hne. unfold asset_ok. rewrite asset_get_store_set_ne by congruence. done.
Qed.

Lemma task_result_with_phase tk p : task_result (with_phase tk p) = task_result tk.
Proof. reflexivity. Qed.

(** The text the first callback produces is the chain's result, whatever
    the cache holds. *)
Lemma task_result_settle st tk vs :
  settle_all (t_tags tk) = Some vs -> task_result tk = (run_then st tk vs).2.
Proof.
  intros Hs. unfold task_result, run_then. rewrite Hs. simpl.
  apply then_replace_target_indep.
Qed.

(** Every step of a promise chain keeps the invariant. *)
Lemma inv_step st st' : inv a st -> step st st' -> inv a st'.
Proof.
  intros [Hsh Hkeys Hoth Hres Htk] Hstep.
  destruct Hstep as [st i tk vs Hi Hp Hs | st i tk Hi Hp Hs | st i tk t Hi Hp | st i tk Hi Hp];
    destruct (Htk i tk Hi) as [Hpo Hao]; constructor; simpl;
    try (rewrite fmap_with_phase; [done | exact Hi | done]).
  (* settle *)
  - destruct (run_then st tk vs).2;
      (rewrite last_done_with_phase by (exact Hi || congruence);
       by rewrite Hres, andb_false_r, orb_false_r).
  - intros j tk' [(<- & <- & _) | (Hij & Hj)]%list_lookup_insert_Some; [|by apply (Htk j)].
    pose proof (task_result_settle st tk vs Hs) as Htr.
    unfold phase_ok, asset_ok in *; simpl. rewrite Hp in Hao.
    destruct (run_then st tk vs).2; by rewrite task_result_with_phase, Htr.
  (* reject *)
  - rewrite last_done_with_phase by (exact Hi || congruence). by rewrite Hres, andb_false_r, orb_false_r.
  - intros j tk' [(<- & <- & _) | (Hij & Hj)]%list_lookup_insert_Some; [|by apply (Htk j)].
    unfold phase_ok, asset_ok, task_result in *; simpl. rewrite Hp in Hao. by rewrite Hs.
  (* write *)
  - intros k Hk. rewrite fmap_with_phase in Hk by (exact Hi || done).
    rewrite asset_get_store_set_ne; [by apply Hoth|]. intros Heq. apply Hk. rewrite <- Heq.
    apply list_elem_of_lookup. exists i. by rewrite list_lookup_fmap, Hi.
  - rewrite last_done_with_phase by (exact Hi || congruence). by rewrite Hres, andb_false_r, orb_false_r.
  - intros j tk' [(<- & <- & _) | (Hij & Hj)]%list_lookup_insert_Some.
    + unfold phase_ok, asset_ok in *; simpl. rewrite Hp in Hpo.
      rewrite asset_get_store_set_eq, task_result_with_phase, Hpo. by split; [eexists|].
    + destruct (Htk j tk' Hj) as [? ?]. split; [done|].
      apply asset_ok_store_other; [|done]. apply not_eq_sym. by eapply task_keys_ne.
  (* finish *)
  - rewrite last_done_with_phase by (exact Hi || congruence). rewrite Hres, bool_decide_true by done.
    by rewrite andb_true_r, orb_assoc.
  - intros j tk' [(<- & <- & _) | (Hij & Hj)]%list_lookup_insert_Some; [|by apply (Htk j)].
    unfold phase_ok, asset_ok in *; simpl. rewrite Hp in Hpo, Hao. done.
Qed.

Lemma inv_steps st st' : inv a st -> rtc step st st' -> inv a st'.
Proof. intros Hi Hr. induction Hr; eauto using inv_step. Qed.

Lemma inv_reachable st : reachable a st -> inv a st.
Proof. intros Hr. eapply inv_steps; [apply inv_init | exact Hr]. Qed.

Lemma reachable_keys st : reachable a st -> t_key <$> st_tasks st = html_keys a.
Proof.
  intros Hr. destruct (inv_reachable st Hr) as [Hsh _ _ _ _].
  rewrite <- replace_assets_keys.
  assert (Hk : forall ts : list task, t_key <$> ts = (fun s => s.1.1.1) <$> (shape <$> ts))
    by (intros ts; rewrite <- list_fmap_compose; apply list_fmap_ext; done).
  by rewrite !Hk, Hsh.
Qed.

Lemma html_keys_spec k : k ∈ html_keys a <-> k ∈ a.*1 /\ html_test k = true.
Proof.
  unfold html_keys. rewrite list_elem_of_filter, (object_keys_perm a). tauto.
Qed.

(** Each step writes only keys of the input, which keeps the key list. *)
Lemma step_asset_keys st st' :
  reachable a st -> step st st' -> (st_assets st).*1 = a.*1 -> (st_assets st').*1 = a.*1.
Proof.
  intros Hr Hs Hk. destruct Hs as [st i tk vs Hi _ _ | st i tk Hi _ _ | st i tk t Hi _ | st i tk Hi _];
    simpl; try done.
  assert (Hin : t_key tk ∈ html_keys a).
  { rewrite <- (reachable_keys st Hr). apply list_elem_of_lookup. exists i.
    by rewrite list_lookup_fmap, Hi. }
  apply html_keys_spec in Hin as [Hin _]. rewrite store_set_keys; [done|]. by rewrite Hk.
Qed.

Lemma steps_asset_keys st st' :
  rtc step st st' -> reachable a st -> (st_assets st).*1 = a.*1 -> (st_assets st').*1 = a.*1.
Proof.
  induction 1 as [|x y z Hxy _ IH]; intros Hr Hk; [done|].
  apply IH; [eapply rtc_r; eauto | by eapply step_asset_keys].
Qed.

Lemma reachable_asset_keys st : reachable a st -> (st_assets st).*1 = a.*1.
Proof.
  intros Hr. eapply steps_asset_keys; [exact Hr | apply rtc_refl |].
  by destruct (replace_assets_state a) as (-> & _).
Qed.

End Preservation.

(** C2: Right after its synchronous part, the promise of [replaceAssets] is
    already resolved exactly when the last key of [Object.keys(assets)] is
    not an HTML name, whatever the other assets are: at that point no
    asset has been written and every HTML asset has a chain still waiting
    for its data. *)
Theorem replace_assets_sync a k :
  last (object_keys a) = Some k ->
  st_resolved (replace_assets a) = negb (html_test k) /\
  st_assets (replace_assets a) = a /\
  t_key <$> st_tasks (replace_assets a) = html_keys a /\
  Forall (fun tk => t_phase tk = Waiting) (st_tasks (replace_assets a)).
Proof.
  intros Hk. split; [by apply initial_resolved|].
  split; [by destruct (replace_assets_state a)|].
  split; [apply replace_assets_keys|].
  apply Forall_lookup. intros j tk Hj. by destruct (replace_assets_task a j tk Hj).
Qed.

Lemma replace_assets_sync_witness :
  st_resolved (replace_assets demo_site) = negb (html_test (lit "main.js")) /\
  st_assets (replace_assets demo_site) = demo_site /\
  t_key <$> st_tasks (replace_assets demo_site) = html_keys demo_site /\
  Forall (fun tk => t_phase tk = Waiting) (st_tasks (replace_assets demo_site)).
Proof. apply replace_assets_sync. discharge_concrete. Defined.

(** C12: In every state of every run the asset object keeps the keys of
    the input, in their creation order, each once: [compilation.assets[key]
    = ...] only replaces the entry of a key the loop read (spec,
    section 3: the asset set is mutated in place and keeps its order). *)
Theorem asset_keys_invariant `{DataSource} a st :
  well_keyed a -> reachable a st -> (st_assets st).*1 = a.*1 /\ well_keyed (st_assets st).
Proof.
  intros Hwk Hr. pose proof (reachable_asset_keys a Hwk st Hr) as Hk.
  split; [exact Hk | unfold well_keyed; by rewrite Hk].
Qed.

(** C9: An asset whose name is not HTML keeps its content in every state of
    every run (spec P7). *)
Theorem non_html_untouched `{DataSource} a st k :
  well_keyed a ->
  reachable a st -> html_test k = false -> asset_get (st_assets st) k = asset_get a k.
Proof.
  intros Hwk Hr Hk. destruct (inv_reachable a Hwk st Hr) as [_ _ Hoth _ _].
  apply Hoth. rewrite (reachable_keys a Hwk st Hr).
  intros [Hh _]%list_elem_of_filter. congruence.
Qed.

(** C5: An empty asset object: the loop body never runs, nothing calls
    [resolve()], and the promise stays pending forever (spec, section
    4.1: an empty set completes at once). *)
Theorem empty_never_resolves `{DataSource} st :
  reachable [] st -> st_resolved st = false.
Proof.
  intros Hr. unfold reachable in Hr. remember (replace_assets []) as st0 eqn:E.
  destruct Hr as [|x y z Hxy _]; subst; [reflexivity|].
  exfalso. inversion Hxy;
    match goal with Hi : st_tasks _ !! _ = Some _ |- _ => vm_compute in Hi; discriminate end.
Qed.

Lemma empty_never_resolves_witness : st_resolved (replace_assets []) = false.
Proof. apply (@empty_never_resolves RemoteData). apply rtc_refl. Defined.

Lemma non_html_untouched_witness :
  asset_get (st_assets (replace_assets demo_build)) (lit "main.js")
    = Some (lit "log('" ++ mk_tag (lit "header") ++ lit "')").
Proof.
  rewrite (@non_html_untouched RemoteData demo_build (replace_assets demo_build) (lit "main.js")
             ltac:(discharge_concrete) (rtc_refl _ _));
    vm_compute; reflexivity.
Defined.
