(* ===== verification/Completion.v ===== *)
(** * Completion, failure and isolation of [replaceAssets]

    What the promise returned by [replaceAssets] promises, checked on
    every run of the step relation of [Engine]: when it is resolved
    (line 55 or line 102), what a rejected fetch or a replacer that
    throws (a marker naming a member of [Object.prototype]) does to it, that
    non-HTML assets are never written, that every run stops, and that a
    run in which all data resolve ends with every HTML asset substituted
    whatever the interleaving. *)

From S2P Require Import Prelude Regex JsString Substitute Assets Engine.
From stdpp Require Import gmap well_founded.
Import HtmlTest Marker.

Section PageDefs.
Context `{DS : DataSource}.

(** The data of the HTML asset [k]: [Promise.all] over the data of its
    markers (one [RemoteData] call per marker, or the member of
    [Object.prototype] that [cache[name]] finds), [None] when one of them
    rejects. *)
Definition page_data (a : asset_set) (k : jstr) : option (list jsval) :=
  mapM (fun n => settle_one (data_from_empty n)) (match_all (default [] (asset_get a k))).*2.

(** The text the chain of [k] writes: [None] when its data reject or a
    [replace] throws. *)
Definition page_result (a : asset_set) (k : jstr) : option jstr :=
  let content := default [] (asset_get a k) in
  page_data a k ≫= fun vs => (then_replace ∅ content (zip (match_all content) vs)).2.

End PageDefs.

Definition phase_rank (p : phase) : nat :=
  match p with
  | Waiting => 3
  | Replaced _ => 2
  | Written => 1
  | Done | Failed => 0
  end.

(** The microtasks still to run. *)
Definition pending_work (st : state) : nat :=
  sum_list ((fun tk => phase_rank (t_phase tk)) <$> st_tasks st).

(** Every chain is over: run to its end or skipped. *)
Definition settled (st : state) : Prop :=
  Forall (fun tk => t_phase tk = Done \/ t_phase tk = Failed) (st_tasks st).

Definition page_about : jstr := mk_tag (lit "footer") ++ lit "<p>About</p>".
Definition page_index : jstr :=
  lit "<body>" ++ mk_tag (lit "header") ++ lit "<main/>" ++ mk_tag (lit "header").

(** Two pages; [index.html] is the last key. *)
Definition demo_pages : asset_set :=
  [(lit "about.html", page_about); (lit "index.html", page_index)].

(** The same pages created in the other order, and a script after them. *)
Definition demo_pages_rev : asset_set :=
  [(lit "index.html", page_index); (lit "about.html", page_about)].
(** Pages whose markers name members of [Object.prototype]. *)
Definition page_proto : jstr :=
  lit "<p>" ++ mk_tag (lit "constructor") ++ lit "|" ++ mk_tag (lit "constructor").
Definition page_value_of : jstr := lit "<p>" ++ mk_tag (lit "valueOf") ++ mk_tag (lit "header").
Definition demo_proto : asset_set :=
  [(lit "proto.html", page_proto); (lit "value.html", page_value_of)].

(** A data source whose request for [footer] fails. *)
Definition flaky_source : DataSource :=
  fun n => if bool_decide (n = lit "footer") then Rejects else remote_data n.

Section Completion.
Context `{DS : DataSource}.

Lemma entry_pairs_build_tags ms : entry_pairs (build_tags ∅ ms).1 = ms.
Proof.
  rewrite build_tags_empty. unfold entry_pairs. simpl. rewrite <- list_fmap_compose.
  rewrite <- (list_fmap_id ms) at 2. apply list_fmap_ext. by intros _ [? ?] _.
Qed.

Lemma settle_all_build_tags ms :
  settle_all (build_tags ∅ ms).1 = mapM (fun n => settle_one (data_from_empty n)) ms.*2.
Proof.
  rewrite build_tags_empty. simpl. unfold settle_all.
  induction ms as [|[tag name] ms IH]; [done|]. cbn. by rewrite IH.
Qed.

Variable a : asset_set.
Hypothesis Hwk : well_keyed a.

(** A chain of a reachable state has the key, content, tags and
    [isLastAsset] it was started with. *)
Lemma reachable_task st j tk :
  reachable a st -> st_tasks st !! j = Some tk ->
  exists tk0, st_tasks (replace_assets a) !! j = Some tk0 /\ shape tk0 = shape tk.
Proof.
  intros Hr Hj. destruct (inv_reachable a Hwk st Hr) as [Hsh _ _ _ _].
  assert (Hs : (shape <$> st_tasks st) !! j = Some (shape tk)) by (by rewrite list_lookup_fmap, Hj).
  rewrite Hsh, list_lookup_fmap in Hs.
  destruct (st_tasks (replace_assets a) !! j) as [tk0|] eqn:E; [|discriminate].
  exists tk0. split; [done | apply (inj Some); exact Hs].
Qed.

Lemma reachable_task_facts st j tk :
  reachable a st -> st_tasks st !! j = Some tk ->
  t_key tk ∈ html_keys a /\ t_target tk = default [] (asset_get a (t_key tk)) /\
  task_result tk = page_result a (t_key tk) /\
  t_last tk = bool_decide (Some (t_key tk) = last (object_keys a)).
Proof.
  intros Hr Hj. destruct (reachable_task st j tk Hr Hj) as (tk0 & Hj0 & Hsh).
  destruct (replace_assets_task a j tk0 Hj0) as (_ & Hin & Hget & Htags & Hlast).
  unfold shape in Hsh. injection Hsh as Hk Ht Htg Hl.
  unfold task_result. rewrite <- Hk, <- Ht, <- Htg, <- Hl, Hget.
  split; [done | split; [done|]]. split; [|done].
  unfold page_result, page_data. rewrite Htags, settle_all_build_tags.
  rewrite Hget. simpl. by rewrite entry_pairs_build_tags.
Qed.

Lemma task_result_Some tk t :
  task_result tk = Some t -> exists vs, settle_all (t_tags tk) = Some vs.
Proof. unfold task_result. destruct (settle_all (t_tags tk)); [eauto | done]. Qed.

(** One chain run to its end from [Waiting]: settle, write, finish. *)
Lemma run_chain st j tk t :
  st_tasks st !! j = Some tk -> t_phase tk = Waiting -> task_result tk = Some t ->
  exists st', rtc step st st' /\
    st_assets st' = store_set (st_assets st) (t_key tk) t /\
    st_tasks st' = <[j := with_phase tk Done]> (st_tasks st) /\
    st_resolved st' = st_resolved st || t_last tk.
Proof.
  intros Hj Hp Ht. destruct (task_result_Some tk t Ht) as [vs Hs]. pose proof (lookup_lt_Some _ _ _ Hj) as Hlt.
  rewrite (task_result_settle st tk vs Hs) in Ht.
  set (st1 := after_settle st j tk vs).
  set (tk1 := with_phase tk (Replaced t)).
  set (st2 := after_write st1 j tk1 t).
  set (tk2 := with_phase tk1 Written).
  exists (after_finish st2 j tk2). split; [|simpl; by rewrite !list_insert_insert_eq].
  eapply rtc_l; [by eapply step_settle|].
  eapply rtc_l; [eapply step_write; [unfold st1, after_settle; simpl; rewrite Ht;
    by rewrite list_lookup_insert_eq | done]|].
  eapply rtc_l; [eapply step_finish; [simpl; rewrite list_lookup_insert_eq; [done|] | done]|];
    [by rewrite length_insert | apply rtc_refl].
Qed.

(** One chain whose data reject, or whose callback throws, is skipped in
    one step that writes nothing. *)
Lemma fail_chain st j tk :
  st_tasks st !! j = Some tk -> t_phase tk = Waiting -> task_result tk = None ->
  exists st', step st st' /\ st_assets st' = st_assets st /\
    st_tasks st' = <[j := with_phase tk Failed]> (st_tasks st) /\
    st_resolved st' = st_resolved st.
Proof.
  intros Hj Hp Ht. destruct (settle_all (t_tags tk)) as [vs|] eqn:Hs.
  - rewrite (task_result_settle st tk vs Hs) in Ht.
    exists (after_settle st j tk vs). split; [by eapply step_settle|].
    unfold after_settle. simpl. by rewrite Ht.
  - eexists. split; [by eapply step_reject | done].
Qed.

(** The chain of the key [k], in the initial state, with its data. *)
Lemma chain_of_key k :
  k ∈ html_keys a -> exists j tk, st_tasks (replace_assets a) !! j = Some tk /\ t_key tk = k /\
    t_phase tk = Waiting /\ settle_all (t_tags tk) = page_data a k /\
    task_result tk = page_result a k.
Proof.
  intros Hk. destruct (replace_assets_task_of a k Hk) as (j & tk & Hj & <-).
  destruct (replace_assets_task a j tk Hj) as (Hw & _ & Hget & Htags & _).
  destruct (reachable_task_facts (replace_assets a) j tk (rtc_refl _ _) Hj) as (_ & _ & Htr & _).
  exists j, tk. do 3 (split; [done|]). split; [|done].
  rewrite Htags, settle_all_build_tags. unfold page_data. by rewrite Hget.
Qed.

Lemma last_html_key k :
  last (object_keys a) = Some k -> html_test k = true -> k ∈ html_keys a.
Proof. intros Hk Hh. apply list_elem_of_filter. split; [done | by apply last_Some_elem_of]. Qed.

(** ** Completion *)

(** C1: When the last key is an HTML asset whose data resolve, the promise
    can be resolved while every other asset still has its original
    content: the third [.then] of the last key's chain resolves it without
    waiting for the other chains (spec, section 5: the last to finish,
    not the last in iteration order, must fulfil). *)
Theorem resolves_before_other_assets k :
  last (object_keys a) = Some k -> html_test k = true -> is_Some (page_result a k) ->
  exists st, reachable a st /\ st_resolved st = true /\
    asset_get (st_assets st) k = page_result a k /\
    forall k', k' <> k -> asset_get (st_assets st) k' = asset_get a k'.
Proof.
  intros Hk Hh [t Ht].
  destruct (chain_of_key k (last_html_key k Hk Hh)) as (j & tk & Hj & <- & Hw & _ & Hres).
  rewrite <- Hres in Ht |- *.
  destruct (run_chain _ j tk t Hj Hw Ht) as (st & Hr & Has & _ & Hrs).
  destruct (replace_assets_state a) as (Ha & _).
  destruct (replace_assets_task a j tk Hj) as (_ & _ & _ & _ & Hl).
  exists st. split; [exact Hr|]. split; [by rewrite Hrs, Hl, Hk, bool_decide_true, orb_true_r|].
  rewrite Has, Ha, Ht. split; [apply asset_get_store_set_eq|].
  intros k' Hne. by apply asset_get_store_set_ne.
Qed.

(** C3: When the data of the last key reject, [Promise.all] rejects, the
    last chain never reaches [resolve()] and nothing else calls it: the
    promise of [replaceAssets] stays pending in every reachable state,
    where the spec requires it to reject (sections 4.1 and 7). *)
Theorem last_rejected_never_resolves k st :
  last (object_keys a) = Some k -> html_test k = true -> page_result a k = None ->
  reachable a st -> st_resolved st = false.
Proof.
  intros Hk Hh Hd Hr. destruct (inv_reachable a Hwk st Hr) as [_ _ _ Hres Htk].
  rewrite Hres, (initial_resolved a k Hk), Hh. simpl.
  apply not_true_is_false. intros (tk & Hin & Hl)%existsb_exists.
  apply list_elem_of_In, list_elem_of_lookup in Hin as [j Hj].
  destruct (reachable_task_facts st j tk Hr Hj) as (_ & _ & Htr & Hlast).
  apply andb_prop in Hl as [Hl Hdone%bool_decide_eq_true_1].
  rewrite Hlast, Hk in Hl. apply bool_decide_eq_true_1 in Hl. injection Hl as Hkey.
  destruct (Htk j tk Hj) as [Hpo _]. unfold phase_ok in Hpo. rewrite Hdone in Hpo.
  rewrite Htr, Hkey, Hd in Hpo. by destruct Hpo.
Qed.

(** C4: A rejected fetch of another HTML asset goes unnoticed: its chain is
    skipped, its asset keeps its markers, and the promise still resolves
    (spec, section 7: the operation must fail). *)
Theorem failure_resolves_anyway k k' :
  last (object_keys a) = Some k -> html_test k = true -> is_Some (page_result a k) ->
  k' ∈ html_keys a -> k' <> k -> page_result a k' = None ->
  exists st, reachable a st /\ st_resolved st = true /\
    asset_get (st_assets st) k' = asset_get a k' /\
    exists j' tk', st_tasks st !! j' = Some tk' /\ t_key tk' = k' /\ t_phase tk' = Failed.
Proof.
  intros Hk Hh [t Ht] Hk' Hne Hd'.
  destruct (chain_of_key k (last_html_key k Hk Hh)) as (j & tk & Hj & <- & Hw & _ & Hres).
  destruct (chain_of_key k' Hk') as (j' & tk' & Hj' & <- & Hw' & _ & Hres').
  rewrite <- Hres in Ht. rewrite <- Hres' in Hd'.
  destruct (replace_assets_task a j tk Hj) as (_ & _ & _ & _ & Hl).
  assert (Hjj : j <> j') by (intros ->; congruence).
  destruct (fail_chain _ j' tk' Hj' Hw' Hd') as (st1 & Hst1 & Ha1 & Ht1 & Hr1).
  assert (Hj1 : st_tasks st1 !! j = Some tk) by (rewrite Ht1; by rewrite list_lookup_insert_ne).
  destruct (run_chain st1 j tk t Hj1 Hw Ht) as (st & Hr & Has & Hts & Hrs).
  exists st. split; [eapply rtc_l; [exact Hst1 | exact Hr]|].
  split; [by rewrite Hrs, Hr1, Hl, Hk, bool_decide_true, orb_true_r|].
  split.
  - rewrite Has, Ha1. rewrite asset_get_store_set_ne by congruence.
    by destruct (replace_assets_state a) as (-> & _).
  - exists j', (with_phase tk' Failed). rewrite Hts, Ht1.
    rewrite list_lookup_insert_ne, list_lookup_insert_eq by (done || by eapply lookup_lt_Some).
    done.
Qed.

(** C13: A page whose first marker names a method of [Object.prototype]
    that throws when [replace] calls it ([valueOf], [hasOwnProperty],
    ...): [cache[name]] finds the inherited function, no request is made,
    [target.replace(tag, data)] calls it with [this] undefined, the
    TypeError rejects the chain, and the page is never written (spec,
    section 4.1: a name is looked up in the remote data). *)
Theorem proto_marker_throws k s tag n ms m :
  asset_get a k = Some s -> match_all s = (tag, n) :: ms ->
  proto_lookup n = Some m -> callable (JProto m) = true -> call_replacer m tag = None ->
  page_result a k = None.
Proof.
  intros Hget Hms Hn Hc Hr. pose proof (match_all_first_occurs s tag n ms Hms) as Ho.
  unfold page_result, page_data. rewrite Hget. simpl. rewrite Hms. simpl.
  assert (Hd : settle_one (data_from_empty n) = Some (JProto m))
    by (unfold data_from_empty; by rewrite Hn).
  rewrite Hd. simpl. destruct (mapM _ _) as [vs|]; simpl; [|done].
  exact (then_replace_first_throws ∅ s tag n ms m vs Ho Hc Hr).
Qed.

Lemma mapM_constructor ns :
  Forall (fun n => n = lit "constructor") ns ->
  mapM (fun n => settle_one (data_from_empty n)) ns = Some ((fun _ => JProto PConstructor) <$> ns).
Proof. induction 1 as [|n ns -> _ IH]; [done|]. simpl. by rewrite IH. Qed.

Lemma Forall_zip_const {A B C} (v : C) (l : list (A * B)) (l' : list A) :
  Forall (fun it => it.2 = v) (zip l ((fun _ => v) <$> l')).
Proof.
  revert l'. induction l as [|x l IH]; intros [|y l']; simpl; constructor; [done | apply IH].
Qed.

(** C21: A page whose markers all name [constructor]: [cache[name]] finds
    [Object.prototype.constructor], no request is made, and [replace]
    calls it with the match, whose [Object] wrapper prints as the match:
    the chain writes the page back unchanged, every marker still in it,
    where the spec substitutes the remote value of [constructor]. *)
Theorem proto_constructor_markers k s :
  asset_get a k = Some s -> Forall (fun n => n = lit "constructor") (match_all s).*2 ->
  page_result a k = Some s.
Proof.
  intros Hget Hn. unfold page_result, page_data. rewrite Hget. simpl.
  rewrite (mapM_constructor _ Hn). simpl. apply then_replace_fixed.
  eapply Forall_impl; [apply Forall_zip_const|]. intros it -> t tag. apply js_replace_matched.
Qed.

(** ** Isolation *)

End Completion.

(** ** Termination and liveness *)

Lemma sum_list_insert (l : list nat) i x y :
  l !! i = Some y -> sum_list (<[i := x]> l) + y = sum_list l + x.
Proof.
  revert i. induction l as [|z l IH]; intros [|i] Hi; simplify_eq/=; [lia|].
  specialize (IH i Hi). lia.
Qed.

Section Liveness.
Context `{DS : DataSource}.

Lemma rank_with_phase (ts : list task) i tk p :
  ts !! i = Some tk ->
  sum_list ((fun tk => phase_rank (t_phase tk)) <$> <[i := with_phase tk p]> ts)
    + phase_rank (t_phase tk)
  = sum_list ((fun tk => phase_rank (t_phase tk)) <$> ts) + phase_rank p.
Proof.
  intros Hi. rewrite list_fmap_insert. apply sum_list_insert.
  by rewrite list_lookup_fmap, Hi.
Qed.

Lemma step_pending_work st st' : step st st' -> pending_work st' < pending_work st.
Proof.
  unfold pending_work.
  destruct 1 as [st i tk vs Hi Hp _ | st i tk Hi Hp _ | st i tk t Hi Hp | st i tk Hi Hp];
    simpl; [destruct (run_then st tk vs).2 | ..]; match goal with
    | |- context [<[i := with_phase tk ?p]> _] => pose proof (rank_with_phase _ i tk p Hi) as Hr
    end; rewrite Hp in Hr; simpl in Hr; lia.
Qed.

Lemma step_terminates : well_founded (fun st' st => step st st').
Proof.
  apply (wf_projected (<) pending_work); [intros x y; apply step_pending_work | apply lt_wf].
Qed.

End Liveness.

Section Outcome.
Context `{DS : DataSource}.

(** A state where some chain is not over can take a step. *)
Lemma step_progress st : ~ settled st -> exists st', step st st'.
Proof.
  intros Hns. apply not_Forall_Exists in Hns; [|apply _].
  apply Exists_exists in Hns as (tk & Hin & Hnot).
  apply list_elem_of_lookup in Hin as [i Hi].
  destruct (t_phase tk) as [|t| | |] eqn:Hp.
  - destruct (settle_all (t_tags tk)) as [vs|] eqn:Hs; eexists;
      [by eapply step_settle | by eapply step_reject].
  - eexists. by eapply step_write.
  - eexists. by eapply step_finish.
  - exfalso. apply Hnot. by left.
  - exfalso. apply Hnot. by right.
Qed.

Lemma eventually_settled st : exists st', rtc step st st' /\ settled st'.
Proof.
  induction st as [st IH] using (well_founded_ind step_terminates).
  destruct (decide (settled st)) as [Hs|Hns]; [exists st; split; [apply rtc_refl | done]|].
  destruct (step_progress st Hns) as [st' Hst]. destruct (IH st' Hst) as (st'' & Hr & Hs).
  exists st''. split; [eapply rtc_l; eauto | done].
Qed.

Variable a : asset_set.
Hypothesis Hwk : well_keyed a.

Lemma settled_all_done st j tk :
  (forall k, k ∈ html_keys a -> is_Some (page_result a k)) ->
  reachable a st -> settled st -> st_tasks st !! j = Some tk -> t_phase tk = Done.
Proof.
  intros Hall Hr Hs Hj. destruct (inv_reachable a Hwk st Hr) as [_ _ _ _ Htk].
  destruct (Htk j tk Hj) as [Hpo _].
  destruct (reachable_task_facts a Hwk st j tk Hr Hj) as (Hin & _ & Htr & _).
  destruct (proj1 (Forall_lookup _ _) Hs j tk Hj) as [Hd | Hf]; [done|].
  exfalso. unfold phase_ok in Hpo. rewrite Hf in Hpo.
  destruct (Hall _ Hin) as [t Ht]. congruence.
Qed.

(** C6: When all the data resolve, every run stops, and every run that has
    stopped has resolved the promise and rewritten each HTML asset with
    its substituted text, whatever order the chains ran in. *)
Theorem run_completes k0 :
  last (object_keys a) = Some k0 ->
  (forall k, k ∈ html_keys a -> is_Some (page_result a k)) ->
  (exists st, reachable a st /\ settled st) /\
  forall st, reachable a st -> settled st ->
    st_resolved st = true /\
    forall k, k ∈ html_keys a -> asset_get (st_assets st) k = page_result a k.
Proof.
  intros Hk0 Hall. split; [apply eventually_settled|].
  intros st Hr Hs. destruct (inv_reachable a Hwk st Hr) as [_ _ _ Hres Htk].
  assert (Hkey : forall k, k ∈ html_keys a ->
    exists j tk, st_tasks st !! j = Some tk /\ t_key tk = k /\ t_phase tk = Done).
  { intros k Hk. rewrite <- (reachable_keys a Hwk st Hr) in Hk.
    apply list_elem_of_lookup in Hk as [j Hj]. rewrite list_lookup_fmap in Hj.
    destruct (st_tasks st !! j) as [tk|] eqn:E; simplify_eq/=.
    exists j, tk. split; [done|]. split; [done|]. by eapply settled_all_done. }
  split.
  - rewrite Hres, (initial_resolved a k0 Hk0).
    destruct (html_test k0) eqn:Hh; [simpl | done].
    destruct (Hkey k0 (last_html_key a k0 Hk0 Hh)) as (j & tk & Hj & Hkt & Hd).
    apply existsb_exists. exists tk. split; [eapply list_elem_of_In, list_elem_of_lookup_2, Hj|].
    destruct (reachable_task_facts a Hwk st j tk Hr Hj) as (_ & _ & _ & ->).
    by rewrite Hkt, Hk0, Hd, !bool_decide_true.
  - intros k Hk. destruct (Hkey k Hk) as (j & tk & Hj & <- & Hd).
    destruct (Htk j tk Hj) as [_ Hao]. unfold asset_ok in Hao. rewrite Hd in Hao.
    rewrite Hao. by destruct (reachable_task_facts a Hwk st j tk Hr Hj) as (_ & _ & -> & _).
Qed.

End Outcome.

(** ** Runs on concrete asset objects *)

Lemma resolves_before_other_assets_witness :
  exists st, reachable demo_pages st /\ st_resolved st = true /\
    asset_get (st_assets st) (lit "index.html") = page_result demo_pages (lit "index.html") /\
    forall k', k' <> lit "index.html" ->
      asset_get (st_assets st) k' = asset_get demo_pages k'.
Proof.
  eapply (@resolves_before_other_assets RemoteData demo_pages); discharge_concrete.
Defined.

Lemma last_rejected_never_resolves_witness :
  @st_resolved (replace_assets demo_pages_rev) = false.
Proof.
  eapply (@last_rejected_never_resolves flaky_source demo_pages_rev); discharge_concrete.
Defined.

Lemma failure_resolves_anyway_witness :
  exists st, @reachable flaky_source demo_pages st /\ st_resolved st = true /\
    asset_get (st_assets st) (lit "about.html") = asset_get demo_pages (lit "about.html") /\
    exists j' tk', st_tasks st !! j' = Some tk' /\ t_key tk' = lit "about.html" /\
                   t_phase tk' = Failed.
Proof.
  eapply (@failure_resolves_anyway flaky_source demo_pages ltac:(discharge_concrete) (lit "index.html"));
    discharge_concrete.
Defined.

Lemma proto_marker_throws_witness :
  page_result demo_proto (lit "value.html") = None.
Proof.
  eapply (@proto_marker_throws RemoteData demo_proto (lit "value.html") page_value_of
            (mk_tag (lit "valueOf")) (lit "valueOf") [(mk_tag (lit "header"), lit "header")]
            PValueOf); discharge_concrete.
Defined.

Lemma proto_constructor_markers_witness :
  page_result demo_proto (lit "proto.html") = Some page_proto.
Proof.
  apply (@proto_constructor_markers RemoteData demo_proto (lit "proto.html") page_proto);
    discharge_concrete.
Defined.

Lemma run_completes_witness :
  (exists st, reachable demo_pages st /\ settled st) /\
  forall st, reachable demo_pages st -> settled st ->
    st_resolved st = true /\
    forall k, k ∈ html_keys demo_pages -> asset_get (st_assets st) k = page_result demo_pages k.
Proof.
  apply (@run_completes RemoteData demo_pages ltac:(discharge_concrete) (lit "index.html"));
    [discharge_concrete|].
  intros k Hk. apply list_elem_of_lookup in Hk as [[|[|j]] Hj]; vm_compute in Hj;
    simplify_eq; vm_compute; eexists; reflexivity.
Defined.

