(* ===== verification/Plugin.v ===== *)
(** * Plugin registration and the build configuration

    [class InjectTemplate] (src/InjectTemplate.js, lines 13-38): the
    constructor keeps its options, and [apply(compiler)] taps the
    compiler's [thisCompilation] hook with a callback that taps the new
    compilation's [processAssets] hook, at stage
    [PROCESS_ASSETS_STAGE_ADDITIONS] with [additionalAssets: true], with
    [(assets) => this.replaceAssets(assets, compilation)].  The hooks are
    lists of taps; the host (webpack's tapable) calls the taps of a hook
    in the order of their stages, each with the hook's arguments.  The
    [processAssets] taps are called with [compilation.assets], so that
    [assets] and [compilation.assets] are one object, as the engine
    assumes.

    The configuration of src/webpack.config.js is a record of its fields
    ([webpack_config]), with [path.resolve] written out for POSIX paths
    ([path_resolve]). *)

From S2P Require Import Prelude Regex JsString Substitute Assets Engine.
From stdpp Require Import sorting.
From Stdlib Require Import ZArith.
Import HtmlTest.

(** ** Hooks *)

(** The first argument of [tapPromise] (lines 26-32). *)
Record tap_options := {
  tap_name : jstr;
  tap_stage : Z;
  tap_additional_assets : bool }.

(** [Compilation.PROCESS_ASSETS_STAGE_ADDITIONS] of webpack 5. *)
Definition PROCESS_ASSETS_STAGE_ADDITIONS : Z := -100.

(** A compilation: its assets and the taps of [processAssets], each with
    the promise-returning callback (here: the state the callback's
    synchronous part leaves). *)
Record compilation := {
  comp_assets : asset_set;
  comp_process_assets : list (tap_options * (asset_set -> state)) }.

(** A compiler: the taps of [thisCompilation]. *)
Record compiler := {
  comp_this_compilation : list (jstr * (compilation -> compilation)) }.

(** ** The plugin *)

Module InjectTemplate.

(** [constructor(options) { this.options = options || {}; }] *)
Definition constructor (options : option plugin_options) : plugin_options :=
  make_plugin options.

Definition process_assets_options : tap_options :=
  {| tap_name := lit "InjectTemplate";
     tap_stage := PROCESS_ASSETS_STAGE_ADDITIONS;
     tap_additional_assets := true |}.

(** Lines 22-37: the [thisCompilation] callback taps [processAssets] with
    [(assets) => this.replaceAssets(assets, compilation)]. *)
Definition on_this_compilation (self : plugin_options) (comp : compilation) : compilation :=
  {| comp_assets := comp_assets comp;
     comp_process_assets :=
       comp_process_assets comp ++ [(process_assets_options, fun assets => replace_assets assets)] |}.

(** Lines 19-38: [apply(compiler)]. *)
Definition apply (self : plugin_options) (c : compiler) : compiler :=
  {| comp_this_compilation :=
       comp_this_compilation c ++ [(lit "InjectTemplate", on_this_compilation self)] |}.

End InjectTemplate.

(** ** The host *)

Definition stage_le (t1 t2 : tap_options * (asset_set -> state)) : Prop :=
  (tap_stage t1.1 <= tap_stage t2.1)%Z.

#[export] Instance stage_le_dec : RelDecision stage_le.
Proof. intros t1 t2. unfold stage_le. apply _. Defined.

(** A new compilation: every [thisCompilation] tap runs on it in turn. *)
Definition call_this_compilation (c : compiler) (comp : compilation) : compilation :=
  foldl (fun comp tap => tap.2 comp) comp (comp_this_compilation c).

(** The [processAssets] hook: the taps by stage (ties in tap order), each
    called with [compilation.assets]. *)
Definition call_process_assets (comp : compilation) : list (tap_options * state) :=
  (fun tap => (tap.1, tap.2 (comp_assets comp)))
    <$> merge_sort stage_le (comp_process_assets comp).

(** A compiler with no taps, and a compilation over the assets [a]. *)
Definition empty_compiler : compiler := {| comp_this_compilation := [] |}.
Definition new_compilation (a : asset_set) : compilation :=
  {| comp_assets := a; comp_process_assets := [] |}.

(** ** The configuration (src/webpack.config.js) *)

Definition ch_slash : ascii := "/"%char.

(** The segments of a path between slashes. *)
Fixpoint split_path (p : jstr) : list jstr :=
  match p with
  | [] => [[]]
  | c :: p' =>
      if bool_decide (c = ch_slash) then [] :: split_path p'
      else match split_path p' with
           | seg :: segs => (c :: seg) :: segs
           | [] => [[c]]
           end
  end.

(** [path.normalize] of the segments of an absolute path: empty and [.]
    segments are dropped, [..] removes the previous segment (and is
    dropped at the root). *)
Fixpoint normalize_segments (acc : list jstr) (segs : list jstr) : list jstr :=
  match segs with
  | [] => acc
  | seg :: segs' =>
      if bool_decide (seg = []) || bool_decide (seg = lit ".") then normalize_segments acc segs'
      else if bool_decide (seg = lit "..") then normalize_segments (removelast acc) segs'
      else normalize_segments (acc ++ [seg]) segs'
  end.

Definition join_absolute (segs : list jstr) : jstr :=
  match segs with
  | [] => [ch_slash]
  | _ => concat ((fun seg => ch_slash :: seg) <$> segs)
  end.

(** The paths of [path.resolve], taken from the right until one is
    absolute; the current directory [cwd] is put in front when none is.
    [ps] is the list of paths reversed. *)
Fixpoint take_absolute (cwd : jstr) (ps : list jstr) : jstr :=
  match ps with
  | [] => cwd
  | p :: ps' => if starts_with [ch_slash] p then p else take_absolute cwd ps' ++ [ch_slash] ++ p
  end.

(** Node's [path.resolve(...paths)] on POSIX: the absolute path the paths
    resolve to, normalized, with no trailing slash. *)
Definition path_resolve (cwd : jstr) (paths : list jstr) : jstr :=
  join_absolute (normalize_segments [] (split_path (take_absolute cwd (rev paths)))).

(** [inject: true | 'head' | 'body' | false]. *)
Inductive inject_mode := InjectTrue | InjectHead | InjectBody | InjectFalse.

(** [scriptLoading: 'blocking' | 'defer'] *)
Inductive script_loading := Blocking | Defer.

Record minify_options := {
  collapse_whitespace : bool;
  remove_attribute_quotes : bool;
  minify_css : bool;
  minify_js : bool }.

(** The options of [new HtmlWebpackPlugin({...})] (lines 21-51). *)
Record html_plugin_options := {
  hp_title : jstr;
  hp_filename : jstr;
  hp_template : jstr;
  hp_hash : bool;
  hp_minify : minify_options;
  hp_inject : inject_mode;
  hp_script_loading : script_loading }.

Inductive plugin :=
| HtmlWebpackPlugin (o : html_plugin_options)
| InjectTemplatePlugin (o : plugin_options).

Record output_options := { out_filename : jstr; out_path : jstr }.

Record webpack_config := {
  cfg_mode : option jstr;
  cfg_entry : jstr;
  cfg_output : output_options;
  cfg_plugins : list plugin }.

(** [module.exports] of webpack.config.js, for the environment variable
    [NODE_ENV], the directory of the file [dirname] and the current
    directory [cwd]. *)
Definition webpack_config_of (node_env : option jstr) (dirname cwd : jstr) : webpack_config :=
  {| cfg_mode := node_env;
     cfg_entry := lit "./src/index.js";
     cfg_output := {| out_filename := lit "index.js";
                      out_path := path_resolve cwd [dirname; lit "dist"] |};
     cfg_plugins :=
       [HtmlWebpackPlugin
          {| hp_title := lit "Webpack Template";
             hp_filename := lit "index.html";
             hp_template := path_resolve cwd [lit "./public/index.html"];
             hp_hash := true;
             hp_minify := {| collapse_whitespace := true; remove_attribute_quotes := true;
                             minify_css := true; minify_js := true |};
             hp_inject := InjectBody;
             hp_script_loading := Blocking |};
        InjectTemplatePlugin (InjectTemplate.constructor config_options)] |}.

(** webpack calls [apply(compiler)] of every plugin in order; the
    HtmlWebpackPlugin's own taps belong to that library and are not
    modelled. *)
Definition apply_plugins (ps : list plugin) (c : compiler) : compiler :=
  foldl (fun c p => match p with
                    | InjectTemplatePlugin o => InjectTemplate.apply o c
                    | HtmlWebpackPlugin _ => c
                    end) c ps.
