(* ===== verification/Outcome.v ===== *)
(** * The final state of [replaceAssets] and the spec's [process]

    Every run of the promise chains ends in a state where each chain has
    written its page or been skipped ([Completion.settled]).  This file
    computes that state from the input alone ([final_assets],
    [final_resolved]) and proves that every finished run reaches it,
    whatever the interleaving: the spec's determinism requirement
    (section 4.1).  It then states the spec's [process] as an abstract
    function ([spec_process]: fetch every marker, substitute literally,
    or fail) and proves that the code refines it on the inputs where
    [String.prototype.replace] acts as a literal substitution. *)

From S2P Require Import Prelude Regex JsString Substitute Assets Engine Completion.
From stdpp Require Import gmap.
Import HtmlTest Marker.

Section Final.
Context `{DS : DataSource}.

(** The content of key [k] (created with content [c]) when every chain is
    over: the text the chain of an HTML asset writes, or [c] when the
    chain is skipped or the asset is not HTML. *)
Definition final_content (a : asset_set) (k c : jstr) : jstr :=
  if html_test k then default c (page_result a k) else c.

Definition final_assets (a : asset_set) : asset_set :=
  (fun '(k, c) => (k, final_content a k c)) <$> a.

(** Whether [resolve()] has been called when every chain is over: by the
    loop for a non-HTML last key, by the last key's chain when it runs
    to its end. *)
Definition final_resolved (a : asset_set) : bool :=
  match last (object_keys a) with
  | Some k => negb (html_test k) || bool_decide (is_Some (page_result a k))
  | None => false
  end.

End Final.

(** ** The spec's [process] *)

Section Spec.
Context `{DS : DataSource}.

(** The spec's [DataSource.fetch(name)]: a string, or a failure. *)
Definition spec_fetch (n : jstr) : option jstr :=
  match fetch n with
  | Resolves (JString v) => Some v
  | _ => None
  end.

(** One eligible asset: resolve every marker name, then put each value in
    place of its marker, literally and all at once (steps 2-5). *)
Definition spec_page (c : jstr) : option jstr :=
  let ms := (scan c).1 in
  vals ← mapM spec_fetch ms.*2; Some (splice ms vals (scan c).2).

Definition spec_asset (kc : jstr * jstr) : option (jstr * jstr) :=
  if html_test kc.1 then (fun t => (kc.1, t)) <$> spec_page kc.2 else Some kc.

(** [process(assets)]: the rewritten asset set, or [None] when some fetch
    fails (section 7: the operation fails). *)
Definition spec_process (a : asset_set) : option asset_set := mapM spec_asset a.

(** A page on which the code's [replace] calls act as the spec's literal
    substitution: no marker names a member of [Object.prototype], no
    value holds a [$] and no value brings in the text of a later
    marker. *)
Definition page_plain (c : jstr) : bool :=
  let ms := (scan c).1 in
  forallb (fun n => bool_decide (proto_lookup n = None)) ms.*2 &&
  match mapM spec_fetch ms.*2 with
  | Some vals => bool_decide (Forall dollar_free vals) && clean [] ms vals
  | None => true
  end.

Definition assets_plain (a : asset_set) : bool :=
  forallb (fun kc => negb (html_test kc.1) || page_plain kc.2) a.

End Spec.

(** ** One schedule of the chains

    A scheduler that always advances the first chain that is not over:
    the chains run one after the other, in the order of the loop.  It is
    one of the interleavings [step] allows, and it evaluates. *)

Section Schedule.
Context `{DS : DataSource}.

Definition chain_open (tk : task) : bool :=
  match t_phase tk with Done | Failed => false | _ => true end.

Definition advance (st : state) (i : nat) (tk : task) : state :=
  match t_phase tk with
  | Waiting =>
      match settle_all (t_tags tk) with
      | Some vs => after_settle st i tk vs
      | None => set_tasks st (<[i := with_phase tk Failed]> (st_tasks st))
      end
  | Replaced t => after_write st i tk t
  | Written => after_finish st i tk
  | Done | Failed => st
  end.

Definition sched_step (st : state) : option state :=
  (fun '(i, tk) => advance st i tk) <$> list_find (fun tk => chain_open tk = true) (st_tasks st).

Fixpoint run_sched (fuel : nat) (st : state) : state :=
  match fuel with
  | 0 => st
  | S fuel' => match sched_step st with Some st' => run_sched fuel' st' | None => st end
  end.

End Schedule.

(** ** The state every finished run reaches *)

Section FinalState.
Context `{DS : DataSource}.
Variable a : asset_set.
Hypothesis Hwk : well_keyed a.

Lemma final_content_other k c : html_test k = false -> final_content a k c = c.
Proof. unfold final_content. by intros ->. Qed.

Lemma task_of_key st k :
  reachable a st -> k ∈ html_keys a -> exists j tk, st_tasks st !! j = Some tk /\ t_key tk = k.
Proof.
  intros Hr Hk. rewrite <- (reachable_keys a Hwk st Hr) in Hk.
  apply list_elem_of_lookup in Hk as [j Hj]. rewrite list_lookup_fmap in Hj.
  destruct (st_tasks st !! j) as [tk|] eqn:E; simplify_eq/=. eauto.
Qed.

(** A finished chain: run to its end exactly when its page has a result. *)
Lemma settled_phase st j tk :
  reachable a st -> settled st -> st_tasks st !! j = Some tk ->
  (t_phase tk = Done /\ is_Some (page_result a (t_key tk))) \/
  (t_phase tk = Failed /\ page_result a (t_key tk) = None).
Proof.
  intros Hr Hs Hj. destruct (inv_reachable a Hwk st Hr) as [_ _ _ _ Htk].
  destruct (Htk j tk Hj) as [Hpo _].
  destruct (reachable_task_facts a Hwk st j tk Hr Hj) as (_ & _ & Htr & _).
  unfold phase_ok in Hpo. rewrite <- Htr.
  destruct (proj1 (Forall_lookup _ _) Hs j tk Hj) as [Hd | Hf]; rewrite ?Hd, ?Hf in Hpo; auto.
Qed.

Lemma settled_asset_get st k :
  reachable a st -> settled st ->
  asset_get (st_assets st) k = final_content a k <$> asset_get a k.
Proof.
  intros Hr Hs. destruct (inv_reachable a Hwk st Hr) as [_ _ Hoth _ Htk].
  destruct (decide (k ∈ html_keys a)) as [Hk|Hk].
  - destruct (task_of_key st k Hr Hk) as (j & tk & Hj & <-).
    destruct (reachable_task_facts a Hwk st j tk Hr Hj) as (_ & Ht & Htr & _).
    apply (html_keys_spec a) in Hk as [Hin Hh].
    destruct (proj2 (asset_get_Some a _) Hin) as [c Hc]. rewrite Hc in Ht |- *. simpl.
    unfold final_content. rewrite Hh.
    destruct (Htk j tk Hj) as [_ Hao]. unfold asset_ok in Hao.
    destruct (settled_phase st j tk Hr Hs Hj) as [[Hp [t Hpr]] | [Hp Hpr]];
      rewrite Hp in Hao; rewrite Hao, ?Htr, Hpr; simpl in Ht |- *; congruence.
  - rewrite Hoth by (by rewrite (reachable_keys a Hwk st Hr)).
    destruct (asset_get a k) as [c|] eqn:Hc; [simpl | done].
    rewrite final_content_other; [done|].
    destruct (html_test k) eqn:Hh; [|done]. exfalso. apply Hk, (html_keys_spec a).
    split; [apply asset_get_Some; by eexists | done].
Qed.

(** The chain of the last key has run to its end exactly when its page
    has a result. *)
Lemma settled_last_done st k :
  reachable a st -> settled st -> last (object_keys a) = Some k -> html_test k = true ->
  last_done (st_tasks st) = bool_decide (is_Some (page_result a k)).
Proof.
  intros Hr Hs Hk Hh.
  destruct (task_of_key st k Hr (last_html_key a k Hk Hh)) as (j & tk & Hj & <-).
  apply Bool.eq_iff_eq_true. rewrite bool_decide_eq_true. split.
  - intros (tk' & Hin & Hl)%existsb_exists.
    apply list_elem_of_In, list_elem_of_lookup in Hin as [j' Hj'].
    apply andb_prop in Hl as [Hl Hd%bool_decide_eq_true_1].
    destruct (reachable_task_facts a Hwk st j' tk' Hr Hj') as (_ & _ & _ & Hl').
    rewrite Hl', Hk in Hl. apply bool_decide_eq_true_1 in Hl. injection Hl as <-.
    destruct (settled_phase st j' tk' Hr Hs Hj') as [[_ ?] | [Hf _]]; [done | congruence].
  - intros Hsome. apply existsb_exists. exists tk.
    split; [eapply list_elem_of_In, list_elem_of_lookup_2, Hj|].
    destruct (reachable_task_facts a Hwk st j tk Hr Hj) as (_ & _ & _ & ->).
    destruct (settled_phase st j tk Hr Hs Hj) as [[Hd _] | [_ Hn]];
      [| by rewrite Hn in Hsome; destruct Hsome].
    by rewrite Hk, Hd, !bool_decide_true.
Qed.

Lemma final_assets_keys : (final_assets a).*1 = a.*1.
Proof.
  unfold final_assets. rewrite <- list_fmap_compose. apply list_fmap_ext. by intros _ [? ?] _.
Qed.

Lemma settled_assets st : reachable a st -> settled st -> st_assets st = final_assets a.
Proof.
  intros Hr Hs. apply asset_get_ext.
  - by rewrite (reachable_asset_keys a Hwk st Hr), final_assets_keys.
  - rewrite (reachable_asset_keys a Hwk st Hr). exact Hwk.
  - intros k. rewrite settled_asset_get by done. unfold final_assets. by rewrite asset_get_fmap.
Qed.

Lemma settled_resolved st :
  reachable a st -> settled st -> st_resolved st = final_resolved a.
Proof.
  intros Hr Hs. destruct (inv_reachable a Hwk st Hr) as [_ _ _ Hres _].
  rewrite Hres. unfold final_resolved. destruct (last (object_keys a)) as [k|] eqn:Hk.
  - rewrite (initial_resolved a k Hk). destruct (html_test k) eqn:Hh; [simpl | done].
    by apply settled_last_done.
  - apply last_None in Hk.
    assert (Ht : st_tasks st = []).
    { pose proof (reachable_keys a Hwk st Hr) as Hks. unfold html_keys in Hks.
      rewrite Hk in Hks. by apply fmap_nil_inv in Hks. }
    rewrite Ht. unfold replace_assets. by rewrite Hk.
Qed.

End FinalState.

(** ** The schedule is a run, and it finishes *)

Section ScheduleFacts.
Context `{DS : DataSource}.

Lemma sched_step_step st st' : sched_step st = Some st' -> step st st'.
Proof.
  unfold sched_step. intros ([i tk] & Hf & ->)%fmap_Some.
  apply list_find_Some in Hf as (Hi & Ho & _). unfold advance, chain_open in *.
  destruct (t_phase tk) eqn:Hp; try discriminate.
  - destruct (settle_all (t_tags tk)) eqn:Hs; [by eapply step_settle | by eapply step_reject].
  - by eapply step_write.
  - by eapply step_finish.
Qed.

Lemma run_sched_rtc n st : rtc step st (run_sched n st).
Proof.
  revert st. induction n as [|n IH]; intros st; [apply rtc_refl|]. simpl.
  destruct (sched_step st) eqn:E; [eapply rtc_l; [by apply sched_step_step | apply IH] | apply rtc_refl].
Qed.

End ScheduleFacts.

(** ** The code refines the spec's [process] *)

Section Refinement.
Context `{DS : DataSource}.

Lemma tags_of_snd ms : (tags_of ms).*2 = ms.*2.
Proof.
  unfold tags_of. rewrite <- list_fmap_compose. apply list_fmap_ext. by intros _ [? ?] _.
Qed.

(** Names that are not members of [Object.prototype] are fetched; the
    values the spec's fetch gives are the values [Promise.all] delivers. *)
Lemma mapM_settle_plain ns (vals : list jstr) :
  Forall (fun n => proto_lookup n = None) ns -> mapM spec_fetch ns = Some vals ->
  mapM (fun n => settle_one (data_from_empty n)) ns = Some (JString <$> vals).
Proof.
  revert vals. induction ns as [|n ns IH]; intros vals Hp Hm; simpl in Hm |- *; [by injection Hm as <-|].
  apply Forall_cons in Hp as [Hn Hp].
  destruct (spec_fetch n) as [v|] eqn:Ef; [simpl in Hm | done].
  destruct (mapM spec_fetch ns) as [vs|] eqn:Er; simplify_eq/=. injection Hm as <-.
  rewrite (IH vs) by done. unfold data_from_empty. rewrite Hn. unfold spec_fetch in Ef. simpl.
  destruct (fetch n) as [[| |]|]; simplify_eq/=; reflexivity.
Qed.

Lemma page_plain_names c :
  page_plain c = true -> Forall (fun n => proto_lookup n = None) (scan c).1.*2.
Proof.
  unfold page_plain. intros [Hp _]%andb_prop. apply Forall_forall. intros n Hn.
  apply forallb_forall with (x := n) in Hp; [by apply bool_decide_eq_true_1 in Hp|].
  by apply list_elem_of_In.
Qed.

(** On a plain page the chain writes the spec's substituted text. *)
Lemma page_result_plain a k c t :
  asset_get a k = Some c -> page_plain c = true -> spec_page c = Some t ->
  page_result a k = Some t.
Proof.
  intros Hget Hp Hs. pose proof (page_plain_names c Hp) as Hn.
  unfold spec_page in Hs. unfold page_plain in Hp.
  destruct (mapM spec_fetch (scan c).1.*2) as [vals|] eqn:Hm; simplify_eq/=.
  apply andb_prop in Hp as [_ Hp]. apply andb_prop in Hp as [Hd%bool_decide_eq_true_1 Hc].
  unfold page_result, page_data. rewrite Hget. simpl.
  rewrite match_all_tags_of, tags_of_snd, (mapM_settle_plain _ vals Hn Hm). simpl.
  destruct (RegexTheorems.scan_fuel_decompose (length c) c) as [Hsc Hf]. fold (scan c) in Hsc, Hf.
  rewrite Hsc at 1. apply (then_replace_assemble ∅ []); [|done..].
  apply mapM_Some_1, Forall2_length in Hm. by rewrite length_fmap in Hm.
Qed.

Lemma spec_assets_final a a' b :
  (forall k c, (k, c) ∈ a' -> asset_get a k = Some c) -> assets_plain a' = true ->
  mapM spec_asset a' = Some b -> b = (fun '(k, c) => (k, final_content a k c)) <$> a'.
Proof.
  revert b. induction a' as [|[k c] a' IH]; intros b Hget Hp Hm; simpl in Hm; [by injection Hm as <-|].
  apply andb_prop in Hp as [Hpk Hp].
  destruct (spec_asset (k, c)) as [[k' c']|] eqn:Ea; [simpl in Hm | done].
  destruct (mapM spec_asset a') as [b'|] eqn:Er; simplify_eq/=. injection Hm as <-.
  rewrite <- (IH b'); [| intros; apply Hget; by right | done | done].
  unfold spec_asset in Ea. simpl in Ea, Hpk. unfold final_content.
  destruct (html_test k); simplify_eq/=; [|done].
  destruct (spec_page c) as [t|] eqn:Es; simplify_eq/=.
  rewrite (page_result_plain a k' c c'); [done | apply Hget; by left | done | done].
Qed.

Lemma spec_process_elem a b k c :
  spec_process a = Some b -> (k, c) ∈ a -> html_test k = true -> is_Some (spec_page c).
Proof.
  intros Hm Hin Hh. assert (Hs : is_Some (spec_process a)) by by eexists.
  apply mapM_is_Some_1 in Hs. rewrite Forall_forall in Hs.
  specialize (Hs _ Hin). unfold compose, spec_asset in Hs. simpl in Hs. rewrite Hh in Hs.
  by apply fmap_is_Some in Hs.
Qed.

Lemma assets_plain_elem a k c :
  assets_plain a = true -> (k, c) ∈ a -> html_test k = true -> page_plain c = true.
Proof.
  intros Hp Hin Hh. unfold assets_plain in Hp. rewrite forallb_forall in Hp.
  apply list_elem_of_In, Hp in Hin. simpl in Hin. by rewrite Hh in Hin.
Qed.

(** When the spec's [process] succeeds on plain pages, every finished run
    has called [resolve()] unless the asset object is empty. *)
Lemma final_resolved_plain a b :
  well_keyed a -> assets_plain a = true -> spec_process a = Some b ->
  final_resolved a = bool_decide (a <> []).
Proof.
  intros Hwk Hp Hm. unfold final_resolved.
  destruct (last (object_keys a)) as [k|] eqn:Hk.
  - assert (Hin : k ∈ a.*1) by (rewrite <- (object_keys_perm a); by eapply last_Some_elem_of).
    rewrite (bool_decide_true (a <> [])) by (intros ->; by apply elem_of_nil in Hin).
    destruct (html_test k) eqn:Hh; [simpl | done].
    apply list_elem_of_fmap in Hin as [[k' c] [-> Hkc]]. simpl in Hh |- *.
    destruct (spec_process_elem a b k' c Hm Hkc Hh) as [t Ht].
    rewrite (bool_decide_true (is_Some _)); [done|]. exists t.
    apply (page_result_plain a k' c t); [by apply asset_get_elem_of | | done].
    by apply (assets_plain_elem a k').
  - apply last_None in Hk. rewrite bool_decide_false; [done|]. intros Hne. apply Hne.
    pose proof (object_keys_perm a) as Hperm. rewrite Hk in Hperm.
    apply Permutation_nil_l in Hperm. symmetry in Hperm. by apply fmap_nil_inv in Hperm.
Qed.

End Refinement.

(** ** Theorems on finished runs *)

(** C8: Every finished run ends in the same state, computed from the input
    alone: each HTML asset holds the text its chain writes, or its
    original content when its chain was skipped, and [resolve()] has been
    called exactly when the last key is not HTML or its page has a
    result (spec, section 4.1: re-running gives identical output). *)
Theorem finished_runs_agree `{DataSource} a st :
  well_keyed a -> reachable a st -> settled st ->
  st_assets st = final_assets a /\ st_resolved st = final_resolved a.
Proof.
  intros Hwk Hr Hs. split; [by apply settled_assets | by apply settled_resolved].
Qed.

(** C7: The code refines the spec's [process] on plain pages: when
    [process] succeeds with the asset set [b], some run of the chains
    finishes, and every finished run holds exactly [b] and has resolved
    the promise, unless the asset object is empty. *)
Theorem process_refines_spec `{DataSource} a b :
  well_keyed a -> assets_plain a = true -> spec_process a = Some b ->
  (exists st, reachable a st /\ settled st) /\
  forall st, reachable a st -> settled st ->
    st_assets st = b /\ st_resolved st = bool_decide (a <> []).
Proof.
  intros Hwk Hp Hm. split; [apply eventually_settled|]. intros st Hr Hs.
  split; [|rewrite (settled_resolved a Hwk st Hr Hs); by eapply final_resolved_plain].
  rewrite (settled_assets a Hwk st Hr Hs).
  symmetry. apply (spec_assets_final a a b); [| done | done].
  intros k c Hin. by apply asset_get_elem_of.
Qed.

Lemma asset_keys_invariant_witness :
  (st_assets (run_sched 6 (replace_assets demo_pages))).*1 = demo_pages.*1 /\
  well_keyed (st_assets (run_sched 6 (replace_assets demo_pages))).
Proof.
  apply (@asset_keys_invariant RemoteData); [discharge_concrete | apply run_sched_rtc].
Defined.

Lemma finished_runs_agree_witness :
  st_assets (run_sched 6 (replace_assets demo_pages)) = final_assets demo_pages /\
  st_resolved (run_sched 6 (replace_assets demo_pages)) = final_resolved demo_pages.
Proof.
  apply (@finished_runs_agree RemoteData);
    [discharge_concrete | apply run_sched_rtc | discharge_concrete].
Defined.

Lemma process_refines_spec_witness :
  (exists st, reachable demo_pages st /\ settled st) /\
  forall st, reachable demo_pages st -> settled st ->
    st_assets st = default [] (spec_process demo_pages) /\
    st_resolved st = bool_decide (demo_pages <> []).
Proof.
  apply (@process_refines_spec RemoteData); discharge_concrete.
Defined.

